(** * mirrordom.parser: the outerHTML parser, embedded and verified

    Source: [src/python/mirrordom/parser.py] (class [OuterHTMLParser] and
    [parse_html]).  The class extends [HTMLParser] of the Python 2 standard
    library; the methods it defines or overrides are translated below one
    by one and keep their names.  Of the base class, the feed loop, the
    comment and processing-instruction scanners and the patterns the module
    imports are translated as well; the scanners for declarations and for
    character and entity references are left open (see [Scanner]).

    Conventions of the embedding:
    - Python [str] values are [string]s; an index into [rawdata] is a [nat];
      a scanner result that is an end position, or -1 when the construct is
      incomplete, is an [option nat] with [None] for -1.
    - lxml elements are mutable objects that the parser reaches both through
      [self.stack] and through their parent's child list.  They live in a
      store ([heap], a list indexed by allocation order); [stack], [root] and
      child lists hold indices into it, so a change made through one
      reference is seen through the others.  lxml is taken to accept every
      name and text the scanner hands it.
    - An exception is a [Raise]; the parser object is not observed after
      one.  An [HTMLParseError] carries its message, not its position:
      [lineno], [offset], [lasttag] and the start-tag text, which only feed
      the position, are left out. *)

From Stdlib Require Import Ascii String List Lia.
From stdpp Require Import base option list gmap strings.

Open Scope string_scope.
Open Scope list_scope.

(** ** Python string primitives used by the parser *)

Module Py.

Definition code (c : ascii) : nat := nat_of_ascii c.

Definition between (lo hi : nat) (c : ascii) : bool :=
  Nat.leb lo (code c) && Nat.leb (code c) hi.

Definition is_upper (c : ascii) : bool := between 65 90 c.
Definition is_lower (c : ascii) : bool := between 97 122 c.
Definition is_alpha (c : ascii) : bool := is_upper c || is_lower c.
Definition is_digit (c : ascii) : bool := between 48 57 c.

(** [\s] of the [re] module on byte strings, and the characters removed by
    [str.strip()]: space, \t, \n, \v, \f, \r. *)
Definition is_space (c : ascii) : bool :=
  Nat.eqb (code c) 32 || between 9 13 c.

Definition is_char (x c : ascii) : bool := Ascii.eqb x c.

Definition lower_char (c : ascii) : ascii :=
  if is_upper c then ascii_of_nat (code c + 32) else c.

(** [s.lower()] *)
Fixpoint lower (s : string) : string :=
  match s with
  | EmptyString => EmptyString
  | String c r => String (lower_char c) (lower r)
  end.

(** [s[i:]] *)
Fixpoint from (i : nat) (s : string) : string :=
  match i, s with
  | O, _ => s
  | S i', String _ r => from i' r
  | S _, EmptyString => EmptyString
  end.

(** [s[:n]] *)
Fixpoint upto (n : nat) (s : string) : string :=
  match n, s with
  | S n', String c r => String c (upto n' r)
  | _, _ => EmptyString
  end.

(** [s[i:j]] for non-negative [i], [j] *)
Definition slice (i j : nat) (s : string) : string := upto (j - i) (from i s).

(** [s.startswith(p)] and [s.startswith(p, i)] *)
Fixpoint has_prefix (p s : string) : bool :=
  match p, s with
  | EmptyString, _ => true
  | String a p', String b s' => Ascii.eqb a b && has_prefix p' s'
  | String _ _, EmptyString => false
  end.

Definition startswith (p : string) (i : nat) (s : string) : bool :=
  has_prefix p (from i s).

(** [x in s] for strings: [x] occurs in [s] *)
Fixpoint is_in (x s : string) : bool :=
  has_prefix x s
  || match s with
     | String _ r => is_in x r
     | EmptyString => false
     end.

(** [c in s] for a character [c] *)
Fixpoint contains (c : ascii) (s : string) : bool :=
  match s with
  | EmptyString => false
  | String a r => Ascii.eqb c a || contains c r
  end.

(** Length of the longest prefix whose characters all satisfy [p]: what a
    greedy [[...]*] consumes when nothing after it can fail on a longer run. *)
Fixpoint span (p : ascii -> bool) (s : string) : nat :=
  match s with
  | String c r => if p c then S (span p r) else 0
  | EmptyString => 0
  end.

(** Offset of the first character satisfying [p], if any. *)
Fixpoint find (p : ascii -> bool) (s : string) : option nat :=
  match s with
  | EmptyString => None
  | String c r => if p c then Some 0 else S <$> find p r
  end.

Fixpoint rev_onto (s acc : string) : string :=
  match s with
  | EmptyString => acc
  | String c r => rev_onto r (String c acc)
  end.

Definition rev (s : string) : string := rev_onto s EmptyString.

Definition lstrip (s : string) : string := from (span is_space s) s.

(** [s.strip()] *)
Definition strip (s : string) : string := rev (lstrip (rev (lstrip s))).

(** [s[-1:]] *)
Definition last_char (s : string) : string := upto 1 (rev s).

(** [s[1:-1]] *)
Definition inner (s : string) : string := upto (String.length s - 2) (from 1 s).

(** The double quote character, as a one-character string. *)
Definition dquote : string := String (ascii_of_nat 34) EmptyString.
Definition squote : string := String (ascii_of_nat 39) EmptyString.

End Py.

(** ** Exceptions *)

(** The messages of [self.error(...)], which raises [HTMLParseError]. *)
Inductive message : Type :=
| UnexpectedOpenTag (tag : string)
    (* "Unexpected open tag: %s" *)
| UnexpectedCloseTagAtTop (tag : string)
    (* "Unexpected close tag at top of tree: %s" *)
| UnexpectedCloseTag (tag expected : string)
    (* "Unexpected close tag: %s. Expected: %s" *)
| MalformedEmptyStartTag
| MalformedStartTag
| JunkCharacters (junk : string)
    (* "junk characters in start tag: %r" *)
| BadEndTag (text : string).
    (* "bad end tag: %r" *)

Inductive exn : Type :=
| HTMLParseError (m : message)
| IndexError          (* list index out of range *)
| AssertionError
| LoopBudget.         (* the bounded unfolding of a [while] loop ran out *)

Inductive res (A : Type) : Type :=
| Ok (a : A)
| Raise (e : exn).
Arguments Ok {A} a.
Arguments Raise {A} e.

#[export] Instance res_ret : MRet res := fun _ a => Ok a.
#[export] Instance res_fmap : FMap res := fun _ _ f m =>
  match m with
  | Ok a => Ok (f a)
  | Raise e => Raise e
  end.
#[export] Instance res_bind : MBind res := fun _ _ f m =>
  match m with
  | Ok a => f a
  | Raise e => Raise e
  end.

(** ** Data model: lxml nodes and the parser object *)

(** A child slot of an element.  A comment is referenced from its parent's
    child list only, so it is stored in place: its text and its tail. *)
Inductive child : Type :=
| CElem (id : nat)
| CComment (data : string) (ctail : option string).

Record element : Type := Element {
  tag : string;
  attrib : list (string * string);
  text : option string;
  tail : option string;
  children : list child
}.

#[export] Instance element_inhabited : Inhabited element :=
  populate (Element EmptyString [] None None []).

(** [self.interesting]: [None] is [interesting_normal]; [Some t] is the
    pattern compiled by [set_specific_cdata_mode(t)]. *)
Record Parser : Type := mkParser {
  heap : list element;
  stack : list nat;
  root : option nat;
  retain_case : bool;
  in_svg : bool;
  rawdata : string;
  interesting : option string
}.

(** [OuterHTMLParser.__init__] (with [HTMLParser.reset]). *)
Definition init (retain_case : bool) : Parser :=
  mkParser [] [] None retain_case false EmptyString None.

Definition set_heap (self : Parser) (h : list element) : Parser :=
  mkParser h (stack self) (root self) (retain_case self) (in_svg self)
           (rawdata self) (interesting self).
Definition set_stack (self : Parser) (s : list nat) : Parser :=
  mkParser (heap self) s (root self) (retain_case self) (in_svg self)
           (rawdata self) (interesting self).
Definition set_root (self : Parser) (r : option nat) : Parser :=
  mkParser (heap self) (stack self) r (retain_case self) (in_svg self)
           (rawdata self) (interesting self).
Definition set_in_svg (self : Parser) (b : bool) : Parser :=
  mkParser (heap self) (stack self) (root self) (retain_case self) b
           (rawdata self) (interesting self).
Definition set_rawdata (self : Parser) (d : string) : Parser :=
  mkParser (heap self) (stack self) (root self) (retain_case self)
           (in_svg self) d (interesting self).
Definition set_interesting (self : Parser) (p : option string) : Parser :=
  mkParser (heap self) (stack self) (root self) (retain_case self)
           (in_svg self) (rawdata self) p.

(** The object an index refers to.  References held by the parser always
    point at allocated elements; the default is there for totality. *)
Definition deref (self : Parser) (id : nat) : element := heap self !!! id.

(** ** Class constants *)

Definition VOID_TAGS : gset string :=
  list_to_set ["area"; "base"; "br"; "col"; "command"; "embed"; "hr";
               "img"; "input"; "keygen"; "link"; "meta"; "param"; "source";
               "track"; "wbr"].

Definition TABLE_ELEMS : gset string :=
  list_to_set ["tbody"; "thead"; "tfoot"; "colgroup"].

Definition AUTOCLOSE_ON_OPEN : gmap string (gset string) :=
  list_to_map [
    ("p", list_to_set ["address"; "article"; "aside"; "blockquote"; "dir";
            "div"; "dl"; "fieldset"; "footer"; "form"; "h1"; "h2"; "h3";
            "h4"; "h5"; "h6"; "header"; "hr"; "menu"; "nav"; "ol"; "p";
            "pre"; "section"; "table"; "ul"]);
    ("tbody", TABLE_ELEMS);
    ("thead", TABLE_ELEMS);
    ("tfoot", TABLE_ELEMS);
    ("colgroup", TABLE_ELEMS);
    ("tr", list_to_set ["tr"]);
    ("td", list_to_set ["td"; "th"]);
    ("th", list_to_set ["td"; "th"]);
    ("dt", list_to_set ["dt"; "dd"]);
    ("dd", list_to_set ["dt"; "dd"]);
    ("li", list_to_set ["li"]);
    ("option", list_to_set ["option"])
  ].

Definition CDATA_CONTENT_ELEMENTS_V2 : gset string :=
  list_to_set ["script"; "style"].

(** ** The tree builder *)

(** The [while] loop of [find_autoclose_on_open], entered at [pos >= 0].
    [None]: the loop executed [return 0]; [Some p]: it was left by [break]
    with [pos = p]. *)
Fixpoint autoclose_walk (self : Parser) (ltag : string) (pos : nat)
  : option nat :=
  let elem := deref self (stack self !!! pos) in
  match AUTOCLOSE_ON_OPEN !! Py.lower (tag elem) with
  | None => Some pos
  | Some autoclose_tags =>
      if negb (bool_decide (ltag ∈ autoclose_tags)) then Some pos
      else match pos with
           | O => None
           | S pos' => autoclose_walk self ltag pos'
           end
  end.

Definition find_autoclose_on_open (self : Parser) (tag_ : string) : nat :=
  let ltag := Py.lower tag_ in
  match length (stack self) with
  | O => 0   (* pos = -1: the loop is skipped, autoclose_count = 1 *)
  | S pos =>
      match autoclose_walk self ltag pos with
      | None => 0
      | Some pos' =>
          let autoclose_count := length (stack self) - pos' in
          autoclose_count - 1
      end
  end.

Definition close_tag (self : Parser) (tag_ : string) (force : bool)
  : res Parser :=
  match last (stack self) with
  | None => Raise (HTMLParseError (UnexpectedCloseTagAtTop tag_))
  | Some top =>
      let elem := deref self top in
      if negb force && negb (String.eqb (tag elem) tag_) then
        Raise (HTMLParseError (UnexpectedCloseTag tag_ (tag elem)))
      else
        let self := set_stack self (removelast (stack self)) in
        Ok (if String.eqb (tag elem) "svg" then set_in_svg self false
            else self)
  end.

(** [for i in range(n): self.close_tag(tag, force=True)] *)
Fixpoint force_close (n : nat) (self : Parser) (tag_ : string) : res Parser :=
  match n with
  | O => Ok self
  | S n' => self ← close_tag self tag_ true; force_close n' self tag_
  end.

Definition check_autoclose_on_open (self : Parser) (tag_ : string)
  : res Parser :=
  let num_to_close := find_autoclose_on_open self tag_ in
  force_close num_to_close self tag_.

(** [attrib[k] = v]: an existing key keeps its place and takes the value. *)
Fixpoint attrib_set (k v : string) (a : list (string * string))
  : list (string * string) :=
  match a with
  | [] => [(k, v)]
  | (k', v') :: r =>
      if String.eqb k' k then (k', v) :: r else (k', v') :: attrib_set k v r
  end.

(** [new.attrib.update(attrs)], where a value [None] has become the empty
    string ([v or '']) *)
Definition attrib_update (a : list (string * string))
    (attrs : list (string * option string)) : list (string * string) :=
  fold_left (fun a kv => attrib_set (fst kv) (default EmptyString (snd kv)) a) attrs a.

(** [parent.append(c)] *)
Definition append_child (self : Parser) (parent : nat) (c : child) : Parser :=
  set_heap self
    (alter (fun e => Element (tag e) (attrib e) (text e) (tail e)
                             (children e ++ [c]))
           parent (heap self)).

Definition open_tag (self : Parser) (tag_ : string)
    (attrs : list (string * option string)) : res Parser :=
  let new := length (heap self) in
  let self :=
    set_heap self
      (heap self ++ [Element tag_ (attrib_update [] attrs) None None []]) in
  self ← match root self with
         | None => Ok (set_root self (Some new))
         | Some _ =>
             match stack self with
             | [] => Raise (HTMLParseError (UnexpectedOpenTag tag_))
             | _ =>
                 self ← check_autoclose_on_open self tag_;
                 match last (stack self) with
                 | None => Raise IndexError
                 | Some parent => Ok (append_child self parent (CElem new))
                 end
             end
         end;
  let self := set_stack self (stack self ++ [new]) in
  Ok (if String.eqb tag_ "svg" then set_in_svg self true else self).

Definition set_specific_cdata_mode (self : Parser) (tag_ : string) : Parser :=
  set_interesting self (Some tag_).

Definition handle_starttag (self : Parser) (tag_ : string)
    (attrs : list (string * option string)) : res Parser :=
  let ltag := Py.lower tag_ in
  self ← open_tag self tag_ attrs;
  self ← (if bool_decide (ltag ∈ VOID_TAGS) then close_tag self tag_ false
          else Ok self);
  Ok (if bool_decide (ltag ∈ CDATA_CONTENT_ELEMENTS_V2)
      then set_specific_cdata_mode self tag_ else self).

Definition handle_endtag (self : Parser) (tag_ : string) : res Parser :=
  let ltag := Py.lower tag_ in
  if bool_decide (ltag ∈ VOID_TAGS) then Ok self
  else close_tag self tag_ false.

Definition handle_startendtag (self : Parser) (tag_ : string)
    (attrs : list (string * option string)) : res Parser :=
  self ← open_tag self tag_ attrs;
  close_tag self tag_ false.

(** [(x or '') + data] *)
Definition or_empty_plus (x : option string) (data : string) : option string :=
  Some (default EmptyString x +:+ data).

Definition add_tail (self : Parser) (id : nat) (data : string) : Parser :=
  set_heap self
    (alter (fun e => Element (tag e) (attrib e) (text e)
                             (or_empty_plus (tail e) data) (children e))
           id (heap self)).

Definition add_text (self : Parser) (id : nat) (data : string) : Parser :=
  set_heap self
    (alter (fun e => Element (tag e) (attrib e)
                             (or_empty_plus (text e) data) (tail e)
                             (children e))
           id (heap self)).

(** [elem[-1].tail = (elem[-1].tail or '') + data] when the last child is a
    comment: the comment sits in the child list of [id]. *)
Definition add_comment_tail (self : Parser) (id : nat) (data : string)
  : Parser :=
  set_heap self
    (alter (fun e =>
              Element (tag e) (attrib e) (text e) (tail e)
                (match last (children e) with
                 | Some (CComment d t) =>
                     removelast (children e)
                       ++ [CComment d (or_empty_plus t data)]
                 | _ => children e
                 end))
           id (heap self)).

Definition handle_data (self : Parser) (data : string) : res Parser :=
  match last (stack self) with
  | None => Ok self
  | Some top =>
      match last (children (deref self top)) with
      | Some (CElem c) => Ok (add_tail self c data)
      | Some (CComment _ _) => Ok (add_comment_tail self top data)
      | None => Ok (add_text self top data)
      end
  end.

Definition handle_comment (self : Parser) (data : string) : res Parser :=
  match last (stack self) with
  | None => Raise IndexError
  | Some top => Ok (append_child self top (CComment data None))
  end.

Definition should_retain_case (self : Parser) (tag_ : option string) : bool :=
  retain_case self || in_svg self
  || match tag_ with
     | Some t => String.eqb t "svg"
     | None => false
     end.

(** ** Regular expressions of the tag scanner

    Each pattern is written out as the function its [match] or [search]
    computes.  Nothing that follows a greedy repetition in these patterns can
    fail in a way a shorter repetition would repair (the characters a
    repetition gives up cannot start what comes next, and the tail of
    [LOCATESTARTTAGEND] and of [ATTRFIND] matches the empty string), so the
    first, greedy attempt is the match Python returns. *)

Module Re.

Definition is_quote (c : ascii) : bool :=
  Py.is_char (ascii_of_nat 34) c || Py.is_char (ascii_of_nat 39) c.

(** [[a-zA-Z_]] *)
Definition name_start (c : ascii) : bool := Py.is_alpha c || Py.is_char "_" c.

(** [[-.a-zA-Z0-9:_]] (the same class as [[-.:a-zA-Z0-9_]]) *)
Definition name_char (c : ascii) : bool :=
  Py.is_alpha c || Py.is_digit c || Py.is_char "-" c || Py.is_char "." c
  || Py.is_char ":" c || Py.is_char "_" c.

(** A quoted literal at the head of [s], for the quote character [q]: [q],
    any characters other than [q], [q].  Its length. *)
Definition quoted (q : ascii) (s : string) : option nat :=
  match s with
  | String c r =>
      if Ascii.eqb c q then (fun n => n + 2) <$> Py.find (Py.is_char q) r
      else None
  | EmptyString => None
  end.

(** [HTMLParser.tagfind], imported by the module, in the form its use in
    [parse_starttag] relies on (the match is the tag name and nothing else):
    [[a-zA-Z][-.a-zA-Z0-9:_]*].  Length of the match. *)
Definition tagfind (s : string) : option nat :=
  match s with
  | String c r => if Py.is_alpha c then Some (S (Py.span name_char r)) else None
  | EmptyString => None
  end.

(** *** LOCATESTARTTAGEND *)

(** Bare value character: anything but a quote, [>] and [\s] *)
Definition locate_bare (c : ascii) : bool :=
  negb (is_quote c || Py.is_char ">" c || Py.is_space c).

(** The value alternatives, in order: single-quoted literal, double-quoted
    literal, one or more bare characters *)
Definition locate_value (s : string) : option nat :=
  match quoted (ascii_of_nat 39) s with
  | Some n => Some n
  | None =>
      match quoted (ascii_of_nat 34) s with
      | Some n => Some n
      | None =>
          match Py.span locate_bare s with
          | O => None
          | n => Some n
          end
      end
  end.

(** The optional value group, [\s*=\s*] and a value: characters consumed,
    0 when the group is skipped *)
Definition locate_value_group (s : string) : nat :=
  let w1 := Py.span Py.is_space s in
  match Py.from w1 s with
  | String "=" r =>
      let w2 := Py.span Py.is_space r in
      match locate_value (Py.from w2 r) with
      | Some v => w1 + 1 + w2 + v
      | None => 0
      end
  | _ => 0
  end.

(** The Chrome artifact, a double quote, [=] and two double quotes *)
Definition chrome_hack : string := Py.dquote +:+ "=" +:+ Py.dquote +:+ Py.dquote.

(** One round of the repeated group: [\s+], then an attribute name with its
    optional value, or the IE artifact [?], or the Chrome artifact.
    Characters consumed; [None] when the round does not match. *)
Definition locate_attr (s : string) : option nat :=
  match Py.span Py.is_space s with
  | O => None
  | w =>
      match Py.from w s with
      | String c r =>
          if name_start c then
            let n := S (Py.span name_char r) in
            Some (w + n + locate_value_group (Py.from n (String c r)))
          else if Py.is_char "?" c then Some (w + 1)
          else if Py.has_prefix chrome_hack (String c r) then Some (w + 4)
          else None
      | EmptyString => None
      end
  end.

(** [(?:...)*]: the rounds, each consuming at least two characters *)
Fixpoint locate_attrs (fuel : nat) (s : string) : nat :=
  match fuel with
  | O => 0
  | S fuel' =>
      match locate_attr s with
      | None => 0
      | Some n => n + locate_attrs fuel' (Py.from n s)
      end
  end.

(** [LOCATESTARTTAGEND.match(rawdata, i)]: [m.end()] *)
Definition LOCATESTARTTAGEND (rawdata : string) (i : nat) : option nat :=
  match Py.from i rawdata with
  | String "<" s =>
      match tagfind s with
      | None => None
      | Some t =>
          let s1 := Py.from t s in
          let a := locate_attrs (String.length s1) s1 in
          let s2 := Py.from a s1 in
          Some (i + 1 + t + a + Py.span Py.is_space s2)
      end
  | _ => None
  end.

(** *** ATTRFIND *)

(** Bare value character of [ATTRFIND]: anything but [\s], a quote, [=],
    [<], [>] and the backquote *)
Definition attr_bare (c : ascii) : bool :=
  negb (Py.is_space c || is_quote c || Py.is_char "=" c || Py.is_char "<" c
        || Py.is_char ">" c || Py.is_char "`" c).

(** Group 1: an attribute name, or [?], or a double quote.  Its length. *)
Definition attr_name (s : string) : option nat :=
  match s with
  | String c r =>
      if name_start c then Some (S (Py.span name_char r))
      else if Py.is_char "?" c || Py.is_char (ascii_of_nat 34) c then Some 1
      else None
  | EmptyString => None
  end.

(** Group 3: single-quoted literal, double-quoted literal, or zero or more
    bare characters.  Its length. *)
Definition attr_value (s : string) : nat :=
  match quoted (ascii_of_nat 39) s with
  | Some n => n
  | None =>
      match quoted (ascii_of_nat 34) s with
      | Some n => n
      | None => Py.span attr_bare s
      end
  end.

(** [ATTRFIND.match(rawdata, k)]: [(m.group(1), m.group(3), m.end())]; group
    3 is [None] exactly when group 2 ([rest]) did not take part. *)
Definition ATTRFIND (rawdata : string) (k : nat)
  : option (string * option string * nat) :=
  let s := Py.from k rawdata in
  let w := Py.span Py.is_space s in
  let s1 := Py.from w s in
  match attr_name s1 with
  | None => None
  | Some n =>
      let attrname := Py.upto n s1 in
      let s2 := Py.from n s1 in
      let w1 := Py.span Py.is_space s2 in
      match Py.from w1 s2 with
      | String "=" r =>
          let w2 := Py.span Py.is_space r in
          let s3 := Py.from w2 r in
          let v := attr_value s3 in
          Some (attrname, Some (Py.upto v s3), k + w + n + w1 + 1 + w2 + v)
      | _ => Some (attrname, None, k + w + n)
      end
  end.

(** *** Patterns imported from [HTMLParser] *)

(** [endendtag.search(rawdata, i)], the pattern [>]: [m.end()] *)
Definition endendtag (rawdata : string) (i : nat) : option nat :=
  (fun n => i + n + 1) <$> Py.find (Py.is_char ">") (Py.from i rawdata).

(** [endtagfind.match(rawdata, i)]: [</], [\s*], a tag name as in [tagfind]
    (group 1), [\s*], [>].  The result is [m.group(1)]. *)
Definition endtagfind (rawdata : string) (i : nat) : option string :=
  match Py.from i rawdata with
  | String "<" (String "/" s) =>
      let s1 := Py.lstrip s in
      match tagfind s1 with
      | None => None
      | Some t =>
          match Py.lstrip (Py.from t s1) with
          | String ">" _ => Some (Py.upto t s1)
          | _ => None
          end
      end
  | _ => None
  end.

(** [starttagopen.match(rawdata, i)], [<[a-zA-Z]] *)
Definition starttagopen (rawdata : string) (i : nat) : bool :=
  match Py.from i rawdata with
  | String "<" (String c _) => Py.is_alpha c
  | _ => false
  end.

(** [--\s*>] at the head of [s]: its length *)
Definition commentclose_here (s : string) : option nat :=
  match s with
  | String "-" (String "-" r) =>
      let w := Py.span Py.is_space r in
      match Py.from w r with
      | String ">" _ => Some (2 + w + 1)
      | _ => None
      end
  | _ => None
  end.

(** [commentclose.search(rawdata, i)]: [(m.start(), m.end())] *)
Fixpoint commentclose_from (s : string) (at_ : nat) : option (nat * nat) :=
  match commentclose_here s with
  | Some n => Some (at_, at_ + n)
  | None =>
      match s with
      | String _ r => commentclose_from r (S at_)
      | EmptyString => None
      end
  end.

Definition commentclose (rawdata : string) (i : nat) : option (nat * nat) :=
  commentclose_from (Py.from i rawdata) i.

(** [interesting_normal], [[&<]] *)
Definition interesting_normal (c : ascii) : bool :=
  Py.is_char "&" c || Py.is_char "<" c.

(** [re.compile(r'<(/%s|\Z)' % tag, re.IGNORECASE)] at the head of [s] *)
Definition interesting_cdata_here (tag_ s : string) : bool :=
  match s with
  | String "<" r =>
      Py.has_prefix (Py.lower ("/" +:+ tag_)) (Py.lower r)
      || match r with EmptyString => true | _ => false end
  | _ => false
  end.

Fixpoint interesting_cdata_from (tag_ s : string) (at_ : nat) : option nat :=
  if interesting_cdata_here tag_ s then Some at_
  else match s with
       | String _ r => interesting_cdata_from tag_ r (S at_)
       | EmptyString => None
       end.

(** [self.interesting.search(rawdata, i)]: [m.start()] *)
Definition interesting_search (pattern : option string) (rawdata : string)
    (i : nat) : option nat :=
  match pattern with
  | None => (fun n => i + n) <$> Py.find interesting_normal (Py.from i rawdata)
  | Some tag_ => interesting_cdata_from tag_ (Py.from i rawdata) i
  end.

End Re.

(** ** The tag scanner and the feed loop *)

(** How one round of the [while] loop of [goahead] ends outside the tag
    branch: go round again at [i], or leave the loop with [i]. *)
Inductive flow : Type :=
| Continue (i : nat)
| Break (i : nat).

(** A scanner returns the parser it has updated through the handlers and
    the end position, [None] standing for -1 (construct incomplete). *)
Definition scan : Type := res (Parser * option nat).

Section Scanner.

(** Inherited from [HTMLParser] and not overridden by [OuterHTMLParser]:
    what the library does with a markup declaration, with a character or
    entity reference in text, and with references inside an attribute value.
    Their bodies belong to the Python library; every statement made below the
    section holds whatever they compute. *)
Variable parse_declaration : string -> nat -> res (option nat).
Variable goahead_reference : Parser -> nat -> res (Parser * flow).
Variable replace_entities : string -> string.

(** [HTMLParser.unescape]: a string without [&] is returned as it is. *)
Definition unescape (s : string) : string :=
  if Py.contains "&" s then replace_entities s else s.

Definition check_for_whole_start_tag (self : Parser) (i : nat)
  : res (option nat) :=
  let rawdata := rawdata self in
  match Re.LOCATESTARTTAGEND rawdata i with
  | Some j =>
      let next := Py.slice j (j + 1) rawdata in
      if String.eqb next ">" then Ok (Some (j + 1))
      else if String.eqb next "/" then
        if Py.startswith "/>" j rawdata then Ok (Some (j + 2))
        else if Py.startswith "/" j rawdata then Ok None
        else Raise (HTMLParseError MalformedEmptyStartTag)
      else if String.eqb next EmptyString then Ok None
      else if Py.is_in next ("abcdefghijklmnopqrstuvwxyz=/"
                             +:+ "ABCDEFGHIJKLMNOPQRSTUVWXYZ")
      then Ok None
      else Raise (HTMLParseError MalformedStartTag)
  | None => Raise AssertionError
  end.

(** The attribute value as the loop of [parse_starttag] stores it. *)
Definition attr_value_of (attrvalue : option string) : option string :=
  match attrvalue with
  | None => None
  | Some v =>
      if (String.eqb (Py.upto 1 v) Py.squote
          && String.eqb Py.squote (Py.last_char v))
         || (String.eqb (Py.upto 1 v) Py.dquote
             && String.eqb Py.dquote (Py.last_char v))
      then Some (unescape (Py.inner v))
      else Some v
  end.

(** [while k < endpos: ...] of [parse_starttag]: the attributes collected
    and the final [k]. *)
Fixpoint attr_loop (fuel : nat) (self : Parser) (final_tag : string)
    (endpos k : nat) (attrs : list (string * option string))
  : list (string * option string) * nat :=
  match fuel with
  | O => (attrs, k)
  | S fuel' =>
      if Nat.ltb k endpos then
        match Re.ATTRFIND (rawdata self) k with
        | None => (attrs, k)
        | Some (attrname, attrvalue, m_end) =>
            if String.eqb attrname "?" || String.eqb attrname Py.dquote then
              attr_loop fuel' self final_tag endpos m_end attrs
            else
              let attrvalue := attr_value_of attrvalue in
              let attrname :=
                if negb (should_retain_case self (Some final_tag))
                then Py.lower attrname else attrname in
              attr_loop fuel' self final_tag endpos m_end
                        (attrs ++ [(attrname, attrvalue)])
        end
      else (attrs, k)
  end.

(** The case hack of [parse_starttag]: the name handed to the builder. *)
Definition case_hack (self : Parser) (raw : string) : string :=
  if should_retain_case self None then raw else Py.lower raw.

(** [CDATA_CONTENT_ELEMENTS] is the empty tuple, so the call of
    [set_cdata_mode] at the end is never reached.  After the junk check
    [end] is [>] or [/>], which makes [end.endswith('/>')] an equality. *)
Definition parse_starttag (self : Parser) (i : nat) : scan :=
  endpos ← check_for_whole_start_tag self i;
  match endpos with
  | None => Ok (self, None)
  | Some endpos =>
      let rawdata := rawdata self in
      match Re.tagfind (Py.from (i + 1) rawdata) with
      | None => Raise AssertionError
      | Some t =>
          let k := i + 1 + t in
          let final_tag := case_hack self (Py.slice (i + 1) k rawdata) in
          let '(attrs, k) :=
            attr_loop (endpos - k) self final_tag endpos k [] in
          let end_ := Py.strip (Py.slice k endpos rawdata) in
          if negb (String.eqb end_ ">" || String.eqb end_ "/>") then
            Raise (HTMLParseError
                     (JunkCharacters (Py.upto 20 (Py.slice k endpos rawdata))))
          else if String.eqb end_ "/>" then
            self ← handle_startendtag self final_tag attrs;
            Ok (self, Some endpos)
          else
            self ← handle_starttag self final_tag attrs;
            Ok (self, Some endpos)
      end
  end.

(** [HTMLParser.clear_cdata_mode] *)
Definition clear_cdata_mode (self : Parser) : Parser :=
  set_interesting self None.

Definition parse_endtag (self : Parser) (i : nat) : scan :=
  let rawdata := rawdata self in
  if negb (String.eqb (Py.slice i (i + 2) rawdata) "</") then
    Raise AssertionError
  else
    match Re.endendtag rawdata (i + 1) with
    | None => Ok (self, None)
    | Some j =>
        match Re.endtagfind rawdata i with
        | None => Raise (HTMLParseError (BadEndTag (Py.slice i j rawdata)))
        | Some tag_ =>
            let tag_ :=
              if negb (should_retain_case self None) then Py.lower tag_
              else tag_ in
            self ← handle_endtag self tag_;
            Ok (clear_cdata_mode self, Some j)
        end
    end.

(** [ParserBase.parse_comment], entered at [<!--] *)
Definition parse_comment (self : Parser) (i : nat) : scan :=
  let rawdata := rawdata self in
  match Re.commentclose rawdata (i + 4) with
  | None => Ok (self, None)
  | Some (j, m_end) =>
      self ← handle_comment self (Py.slice (i + 4) j rawdata);
      Ok (self, Some m_end)
  end.

(** [HTMLParser.parse_pi]: [handle_pi] is the empty method of the base class *)
Definition parse_pi (self : Parser) (i : nat) : scan :=
  match Re.endendtag (rawdata self) (i + 2) with
  | None => Ok (self, None)
  | Some m_end => Ok (self, Some m_end)
  end.

(** The branch of [goahead] taken at a [<]: the [if]/[elif] chain.  [None]
    is both [k < 0] and the final [else: break]: with [end] false each
    leaves the loop at [i]. *)
Definition goahead_tag (self : Parser) (i n : nat) : scan :=
  let rawdata := rawdata self in
  if Re.starttagopen rawdata i then parse_starttag self i
  else if Py.startswith "</" i rawdata then parse_endtag self i
  else if Py.startswith "<!--" i rawdata then parse_comment self i
  else if Py.startswith "<?" i rawdata then parse_pi self i
  else if Py.startswith "<!" i rawdata then
    k ← parse_declaration rawdata i; Ok (self, k)
  else if Nat.ltb (i + 1) n then
    self ← handle_data self "<"; Ok (self, Some (i + 1))
  else Ok (self, None).

(** The [while i < n] loop of [HTMLParser.goahead(end)] for [end] false,
    followed by [self.rawdata = rawdata[i:]]. *)
Fixpoint goahead_loop (fuel : nat) (self : Parser) (i : nat) : res Parser :=
  let rawdata := rawdata self in
  let n := String.length rawdata in
  let leave (self : Parser) (i : nat) :=
    Ok (set_rawdata self (Py.from i rawdata)) in
  match fuel with
  | O => Raise LoopBudget
  | S fuel' =>
      if negb (Nat.ltb i n) then leave self i
      else
        let j := default n (Re.interesting_search (interesting self) rawdata i) in
        self ← (if Nat.ltb i j then handle_data self (Py.slice i j rawdata)
                else Ok self);
        let i := j in
        if Nat.eqb i n then leave self i
        else if Py.startswith "<" i rawdata then
          r ← goahead_tag self i n;
          match r with
          | (self, None) => leave self i
          | (self, Some k) => goahead_loop fuel' self k
          end
        else if Py.startswith "&" i rawdata then
          r ← goahead_reference self i;
          match r with
          | (self, Continue i) => goahead_loop fuel' self i
          | (self, Break i) => leave self i
          end
        else Raise AssertionError
  end.

(** [HTMLParser.goahead(0)]: every round that goes on moves [i] forward, so
    the length of the buffer bounds the number of rounds. *)
Definition goahead (self : Parser) : res Parser :=
  goahead_loop (S (String.length (rawdata self))) self 0.

(** [HTMLParser.feed] *)
Definition feed (self : Parser) (data : string) : res Parser :=
  goahead (set_rawdata self (rawdata self +:+ data)).

(** Successive [feed] calls on one parser. *)
Fixpoint feed_all (self : Parser) (chunks : list string) : res Parser :=
  match chunks with
  | [] => Ok self
  | c :: cs => self ← feed self c; feed_all self cs
  end.

End Scanner.

(** ** The value returned to the caller *)

(** The object graph reachable from an element, read out of the store. *)
#[warnings="-register-all"] Inductive tree : Type :=
| TElement (tag_ : string) (attrib_ : list (string * string))
           (text_ tail_ : option string) (children_ : list tree)
| TComment (data : string) (tail_ : option string).

Fixpoint snapshot (fuel : nat) (h : list element) (id : nat) : tree :=
  let e : element := h !!! id in
  TElement (tag e) (attrib e) (text e) (tail e)
    (match fuel with
     | O => []
     | S fuel' =>
         map (fun c => match c with
                       | CElem c => snapshot fuel' h c
                       | CComment d t => TComment d t
                       end)
             (children e)
     end).

(** [parser.root] as the caller sees it: a child is allocated after its
    parent, so the size of the store bounds the depth of the tree. *)
Definition root_tree (self : Parser) : option tree :=
  snapshot (length (heap self)) (heap self) <$> root self.

Section Entry.

Variable parse_declaration : string -> nat -> res (option nat).
Variable goahead_reference : Parser -> nat -> res (Parser * flow).
Variable replace_entities : string -> string.

(** [parse_html(html, is_fragment, retain_case)]; [is_fragment] is unused
    and the [except] clause logs and re-raises. *)
Definition parse_html (html : string) (retain_case : bool)
  : res (option tree) :=
  parser ← feed parse_declaration goahead_reference replace_entities
              (init retain_case) html;
  Ok (root_tree parser).

End Entry.

(** ** Instances for closed statements

    The inputs evaluated in closed statements hold no [<!] declaration and
    no [&], so the three inherited routines are never entered on them; each
    such statement is an instance of a lemma proved for every choice of the
    routines.  The instance taken: a declaration reported incomplete, a
    reference that leaves the loop, no entity replaced. *)

Module Inert.

Definition parse_declaration : string -> nat -> res (option nat) :=
  fun _ _ => Ok None.
Definition goahead_reference : Parser -> nat -> res (Parser * flow) :=
  fun self i => Ok (self, Break i).
Definition replace_entities : string -> string := fun s => s.

Definition feed_all := feed_all parse_declaration goahead_reference replace_entities.
Definition parse_html := parse_html parse_declaration goahead_reference replace_entities.

End Inert.

(** ** Handler calls

    The tokenizer drives the builder through five methods; a sequence of
    such calls stands for whatever the tokenizer emits. *)

Inductive call : Type :=
| Starttag (tag_ : string) (attrs : list (string * option string))
| Startendtag (tag_ : string) (attrs : list (string * option string))
| Endtag (tag_ : string)
| Data (data : string)
| Comment (data : string).

Definition dispatch (self : Parser) (c : call) : res Parser :=
  match c with
  | Starttag t a => handle_starttag self t a
  | Startendtag t a => handle_startendtag self t a
  | Endtag t => handle_endtag self t
  | Data d => handle_data self d
  | Comment d => handle_comment self d
  end.

Fixpoint run (self : Parser) (cs : list call) : res Parser :=
  match cs with
  | [] => Ok self
  | c :: cs' => self ← dispatch self c; run self cs'
  end.

(** What can happen to the parser object between two moments of a parse:
    the tokenizer calls a handler (one that [allowed] admits), or it assigns
    its own fields, the buffer and the text pattern. *)
Inductive step (allowed : call -> bool) : Parser -> Parser -> Prop :=
| step_call self c self' :
    allowed c = true -> dispatch self c = Ok self' -> step allowed self self'
| step_rawdata self d : step allowed self (set_rawdata self d)
| step_interesting self p : step allowed self (set_interesting self p).

Definition any_call (c : call) : bool := true.

(** A call that opens an element. *)
Definition opens (c : call) : bool :=
  match c with
  | Starttag _ _ | Startendtag _ _ => true
  | Endtag _ | Data _ | Comment _ => false
  end.

Definition no_open (c : call) : bool := negb (opens c).

(** ** Predicates of the statements *)

(** A stack slot that the walk of [find_autoclose_on_open] takes as a
    forced-close candidate for the lowercased new name [ltag]: its
    lowercased tag has a configured set, and [ltag] is in it. *)
Definition candidate (self : Parser) (ltag : string) (id : nat) : Prop :=
  exists s,
    AUTOCLOSE_ON_OPEN !! Py.lower (tag (deref self id)) = Some s /\ ltag ∈ s.

Definition void (t : string) : Prop := Py.lower t ∈ VOID_TAGS.

(** The tags of the allocated elements, in allocation order. *)
Definition tags (self : Parser) : list string := tag <$> heap self.

(** The invariant between handler calls: every element on the stack is
    allocated and is not a void element, and a void element has no child. *)
Definition stack_ok (st : list nat) (tg : list string) : Prop :=
  forall id, id ∈ st -> exists t, tg !! id = Some t /\ ~ void t.

Definition void_childless (h : list element) : Prop :=
  forall id e, h !! id = Some e -> void (tag e) -> children e = [].

Definition wf (self : Parser) : Prop :=
  stack_ok (stack self) (tags self) /\ void_childless (heap self).

(** The two artifact tokens that [ATTRFIND] captures as a name. *)
Definition artifact (name : string) : Prop :=
  name = "?" \/ name = Py.dquote.

(** A result that is not the exhaustion of a loop bound and, when it is a
    parser, one that still holds the buffer of [self]. *)
Definition keeps (self : Parser) (r : res Parser) : Prop :=
  match r with
  | Ok self' => rawdata self' = rawdata self
  | Raise e => e <> LoopBudget
  end.

(** The same for a scanner entered at [i]: an end position lies beyond [i]. *)
Definition advances (self : Parser) (i : nat) (r : scan) : Prop :=
  match r with
  | Ok (self', k) =>
      rawdata self' = rawdata self
      /\ match k with Some k => i < k | None => True end
  | Raise e => e <> LoopBudget
  end.

(** The foreign-content flag is backed by the stack: when it is set, an
    element whose tag is exactly svg is open. *)
Definition svg_backed (self : Parser) : Prop :=
  in_svg self = true ->
  exists id, id ∈ stack self /\ tags self !! id = Some "svg".

(** [attrib.get(k)]: the value stored under a name. *)
Fixpoint attrib_get (k : string) (a : list (string * string)) : option string :=
  match a with
  | [] => None
  | (k', v) :: r => if String.eqb k' k then Some v else attrib_get k r
  end.

(** The element children of an element, by id, in document order. *)
Definition child_id (c : child) : option nat :=
  match c with
  | CElem i => Some i
  | CComment _ _ => None
  end.

Definition kids (e : element) : list nat := omap child_id (children e).

(** The stack is a path from the root: it starts at element 0 and each
    entry is a child of the entry below it. *)
Definition chain (K : list (list nat)) (st : list nat) : Prop :=
  (forall r, st !! 0 = Some r -> r = 0)
  /\ forall i p c, st !! i = Some p -> st !! S i = Some c -> c ∈ K !!! p.

(** The store is a tree rooted at element 0: the root is the first element
    allocated, a child is allocated after its parent, every element but the
    root is the child of exactly one element, exactly once, and the stack
    is a path from the root. *)
Definition tree_shaped (self : Parser) : Prop :=
  let K := kids <$> heap self in
  root self = match heap self with [] => None | _ => Some 0 end
  /\ (forall p c, c ∈ K !!! p -> p < c)
  /\ mjoin K ≡ₚ seq 1 (length K - 1)
  /\ chain K (stack self).

(** * Properties *)

Lemma bind_Ok {A B} (m : res A) (f : A -> res B) (b : B) :
  m ≫= f = Ok b -> exists a, m = Ok a /\ f a = Ok b.
Proof. destruct m as [a|e]; simpl; [eauto | discriminate]. Qed.

Ltac inv_bind H :=
  let a := fresh "self" in
  let Ha := fresh "H" a in
  apply bind_Ok in H; destruct H as (a & Ha & H).

(** ** Void end tags (C10) and comments outside the root (C9) *)

(** C10. An end tag whose lowercased name is a void tag returns at once:
    [handle_endtag] raises nothing and hands back the very same parser
    object state (stack, root, [in_svg], every node). *)
Theorem handle_endtag_void (self : Parser) (tag_ : string) :
  Py.lower tag_ ∈ VOID_TAGS -> handle_endtag self tag_ = Ok self.
Proof.
  intros Hvoid. unfold handle_endtag.
  by rewrite bool_decide_eq_true_2.
Qed.

Lemma handle_endtag_void_witness :
  Py.lower "BR" ∈ VOID_TAGS /\
  handle_endtag (init false) "BR" = Ok (init false).
Proof.
  assert (H : Py.lower "BR" ∈ VOID_TAGS)
    by (apply (bool_decide_unpack _); vm_compute; exact I).
  split; [exact H | apply (handle_endtag_void (init false) "BR" H)].
Defined.

(** C9. With an empty open-element stack [handle_comment] fails on reading
    [self.stack[-1]]: an [IndexError], which is neither a parse error nor
    the silent discard that [handle_data] performs in the same state. *)
Theorem handle_comment_empty_stack (self : Parser) (data : string) :
  stack self = [] ->
  handle_comment self data = Raise IndexError
  /\ handle_data self data = Ok self
  /\ (forall m, handle_comment self data <> Raise (HTMLParseError m)).
Proof.
  intros Hempty. unfold handle_comment, handle_data. rewrite Hempty. simpl.
  repeat split. intros m. discriminate.
Qed.

Lemma handle_comment_empty_stack_witness :
  handle_comment (init false) " c " = Raise IndexError
  /\ handle_data (init false) " c " = Ok (init false)
  /\ (forall m, handle_comment (init false) " c " <> Raise (HTMLParseError m)).
Proof.
  apply (handle_comment_empty_stack (init false) " c "). reflexivity.
Defined.

(** ** The foreign-content flag on close (C3) *)

Lemma close_tag_Ok (self self' : Parser) (tag_ : string) (force : bool) :
  close_tag self tag_ force = Ok self' ->
  exists top,
    last (stack self) = Some top
    /\ (force = false -> tag (deref self top) = tag_)
    /\ self' = (let popped := set_stack self (removelast (stack self)) in
                if String.eqb (tag (deref self top)) "svg"
                then set_in_svg popped false else popped).
Proof.
  unfold close_tag. destruct (last (stack self)) as [top|]; [|discriminate].
  destruct force; simpl.
  - intros [= <-]. exists top. repeat split. discriminate.
  - destruct (String.eqb_spec (tag (deref self top)) tag_) as [Heq|Hne]; simpl;
      [|discriminate].
    intros [= <-]. exists top. repeat split. done.
Qed.

(** C3, as the code has it.  Closing pops the top element and, whenever that
    element's tag is exactly svg, sets [in_svg] to false, whatever remains
    on the stack; otherwise the flag keeps its value.  The flag is one
    boolean and does not follow the nesting of svg elements. *)
Theorem close_tag_clears_in_svg (self self' : Parser) (tag_ : string)
    (force : bool) :
  close_tag self tag_ force = Ok self' ->
  exists top,
    last (stack self) = Some top
    /\ stack self' = removelast (stack self)
    /\ in_svg self' =
         (if String.eqb (tag (deref self top)) "svg" then false
          else in_svg self).
Proof.
  intros H. apply close_tag_Ok in H as (top & Htop & _ & ->).
  exists top. split; [done|].
  destruct (String.eqb (tag (deref self top)) "svg"); done.
Qed.

Lemma close_tag_clears_in_svg_witness :
  let self := mkParser [Element "svg" [] None None [CElem 1];
                        Element "svg" [] None None []]
                       [0; 1] (Some 0) false true EmptyString None in
  let self' := set_in_svg (set_stack self [0]) false in
  close_tag self "svg" false = Ok self'
  /\ exists top,
       last (stack self) = Some top
       /\ stack self' = removelast (stack self)
       /\ in_svg self' =
            (if String.eqb (tag (deref self top)) "svg" then false
             else in_svg self).
Proof.
  intros self self'.
  assert (H : close_tag self "svg" false = Ok self') by reflexivity.
  split; [exact H|].
  exact (close_tag_clears_in_svg self self' "svg" false H).
Defined.

(** C3 fails as stated: an svg opened inside an svg and then closed leaves
    the outer svg on the stack with [in_svg] false. *)
Lemma nested_svg_close_clears_flag :
  match run (init false) [Starttag "svg" []; Starttag "svg" []; Endtag "svg"]
  with
  | Ok self =>
      stack self = [0] /\ tag (deref self 0) = "svg" /\ in_svg self = false
  | Raise _ => False
  end
  /\ match Inert.feed_all (init false) ["<svg><svg></svg>"] with
     | Ok self =>
         stack self = [0] /\ tag (deref self 0) = "svg" /\ in_svg self = false
     | Raise _ => False
     end.
Proof. vm_compute. repeat split. Qed.

(** ** The walk of autoclose-on-open (C1) *)

Lemma svg_closes_nothing :
  map_Forall (fun _ (s : gset string) => "svg" ∉ s) AUTOCLOSE_ON_OPEN.
Proof. apply (bool_decide_unpack _). vm_compute. exact I. Qed.

Lemma no_autoclose_for_empty_tag : AUTOCLOSE_ON_OPEN !! EmptyString = None.
Proof. vm_compute. reflexivity. Qed.

(** A stack slot with a configured set refers to an allocated element. *)
Lemma candidate_allocated (self : Parser) (id : nat) (s : gset string) :
  AUTOCLOSE_ON_OPEN !! Py.lower (tag (deref self id)) = Some s ->
  id < length (heap self).
Proof.
  intros H. destruct (decide (id < length (heap self))) as [|Hge]; [done|].
  exfalso. unfold deref in H.
  rewrite list_lookup_total_alt in H.
  rewrite (lookup_ge_None_2 (heap self) id) in H by lia.
  simpl in H. rewrite no_autoclose_for_empty_tag in H. discriminate.
Qed.

Lemma autoclose_walk_all_candidates (self : Parser) (ltag : string)
    (pos : nat) :
  (forall p, p <= pos -> candidate self ltag (stack self !!! p)) ->
  autoclose_walk self ltag pos = None.
Proof.
  induction pos as [|pos IH]; intros Hall.
  - destruct (Hall 0 (le_n _)) as (s & Hs & Hin). simpl. rewrite Hs.
    by rewrite bool_decide_eq_true_2.
  - destruct (Hall (S pos) (le_n _)) as (s & Hs & Hin).
    simpl. rewrite Hs. rewrite bool_decide_eq_true_2 by done. simpl.
    apply IH. intros p Hp. apply Hall. lia.
Qed.

Lemma find_autoclose_all_candidates (self : Parser) (tag_ : string) :
  (forall id, id ∈ stack self -> candidate self (Py.lower tag_) id) ->
  find_autoclose_on_open self tag_ = 0.
Proof.
  intros Hall. unfold find_autoclose_on_open.
  destruct (length (stack self)) as [|pos] eqn:Hlen; [done|].
  rewrite autoclose_walk_all_candidates; [done|].
  intros p Hp. apply Hall. apply list_elem_of_lookup_total_2. lia.
Qed.

(** C1, as the code has it.  When the walk reaches position 0 and every
    element it visited is a candidate, [find_autoclose_on_open] returns 0:
    nothing is force-closed, the new element is pushed on top of the
    unchanged stack and, the root being set, becomes the last child of the
    element that was and still is below it. *)
Theorem autoclose_walk_to_bottom (self : Parser) (tag_ : string)
    (attrs : list (string * option string)) :
  stack self <> [] ->
  (forall id, id ∈ stack self -> candidate self (Py.lower tag_) id) ->
  find_autoclose_on_open self tag_ = 0
  /\ check_autoclose_on_open self tag_ = Ok self
  /\ exists self',
       open_tag self tag_ attrs = Ok self'
       /\ stack self' = stack self ++ [length (heap self)]
       /\ in_svg self' = in_svg self
       /\ (root self <> None ->
           exists top,
             last (stack self) = Some top
             /\ children (deref self' top)
                = children (deref self top) ++ [CElem (length (heap self))]).
Proof.
  intros Hne Hall.
  assert (H0 : find_autoclose_on_open self tag_ = 0)
    by (by apply find_autoclose_all_candidates).
  split; [done|]. split; [unfold check_autoclose_on_open; by rewrite H0|].
  assert (Hsvg : String.eqb tag_ "svg" = false).
  { destruct (String.eqb_spec tag_ "svg") as [->|]; [|done]. exfalso.
    destruct (stack self) as [|id st] eqn:Hst; [done|].
    destruct (Hall id) as (s & Hs & Hin); [left|].
    exact (svg_closes_nothing _ s Hs Hin). }
  unfold open_tag. rewrite Hsvg.
  set (self1 := set_heap self (heap self ++ [_])).
  assert (H1 : find_autoclose_on_open self1 tag_ = 0).
  { apply find_autoclose_all_candidates. intros id Hid.
    destruct (Hall id Hid) as (s & Hs & Hin). exists s. split; [|done].
    pose proof (candidate_allocated _ _ _ Hs) as Hlt.
    unfold deref, self1. simpl. rewrite lookup_total_app_l by done. exact Hs. }
  destruct (root self1) as [r|] eqn:Hroot.
  - change (stack self1) with (stack self).
    destruct (stack self) as [|id st] eqn:Hst; [done|].
    unfold check_autoclose_on_open. rewrite H1.
    change (force_close 0 self1 tag_) with (Ok self1).
    assert (Hlast : exists parent, last (stack self) = Some parent).
    { rewrite Hst.
      destruct (last (id :: st)) as [parent|] eqn:Hlast; [by eexists|].
      apply last_None in Hlast. discriminate. }
    destruct Hlast as (parent & Hlast). simpl. rewrite Hlast. simpl.
    eexists. split; [reflexivity|]. simpl. rewrite Hst.
    split; [done|]. split; [done|]. intros _. exists parent.
    rewrite <- Hst. split; [done|].
    destruct (Hall parent) as (s & Hs & _);
      [apply last_Some_elem_of; by rewrite <- Hst|].
    apply candidate_allocated in Hs.
    unfold deref. simpl.
    rewrite list_lookup_total_alter_eq by (rewrite length_app; lia).
    simpl. by rewrite lookup_total_app_l.
  - simpl. eexists. split; [reflexivity|]. simpl.
    split; [done|]. split; [done|]. intros Hr. exfalso. apply Hr.
    exact Hroot.
Qed.

Lemma autoclose_walk_to_bottom_witness :
  let self := mkParser [Element "p" [] None None []] [0] (Some 0) false false
                       EmptyString None in
  find_autoclose_on_open self "p" = 0
  /\ check_autoclose_on_open self "p" = Ok self
  /\ exists self',
       open_tag self "p" [] = Ok self'
       /\ stack self' = stack self ++ [length (heap self)]
       /\ in_svg self' = in_svg self
       /\ (root self <> None ->
           exists top,
             last (stack self) = Some top
             /\ children (deref self' top)
                = children (deref self top) ++ [CElem (length (heap self))]).
Proof.
  intros self. apply (autoclose_walk_to_bottom self "p" []).
  - discriminate.
  - intros id Hid. apply list_elem_of_singleton in Hid as ->.
    exists (default ∅ (AUTOCLOSE_ON_OPEN !! "p")).
    split; [vm_compute; reflexivity|].
    apply (bool_decide_unpack _). vm_compute. exact I.
Defined.

(** C1 fails as stated: with the stack holding one p, opening a second p
    closes nothing.  The first p stays on the stack and the new p becomes
    its child. *)
Lemma second_p_keeps_first_open :
  match run (init false) [Starttag "p" []] with
  | Ok self =>
      stack self = [0] /\ tag (deref self 0) = "p"
      /\ find_autoclose_on_open self "p" = 0
      /\ match open_tag self "p" [] with
         | Ok self' =>
             stack self' = [0; 1] /\ children (deref self' 0) = [CElem 1]
         | Raise _ => False
         end
  | Raise _ => False
  end.
Proof. vm_compute. repeat split. Qed.

(** ** The foreign-content flag on open (C8) *)

Lemma find_autoclose_svg (self : Parser) (tag_ : string) :
  Py.lower tag_ = "svg" -> find_autoclose_on_open self tag_ = 0.
Proof.
  intros Hl. unfold find_autoclose_on_open. rewrite Hl.
  destruct (length (stack self)) as [|pos] eqn:Hlen; [done|].
  assert (Hwalk : autoclose_walk self "svg" pos = Some pos).
  { destruct pos as [|pos]; simpl;
      destruct (AUTOCLOSE_ON_OPEN !! _) as [s|] eqn:Hs; try done;
      rewrite bool_decide_eq_false_2; try done;
      exact (svg_closes_nothing _ _ Hs). }
  rewrite Hwalk. lia.
Qed.

(** What [open_tag] does when the autoclose check closes nothing. *)
Lemma open_tag_without_autoclose (self self' : Parser) (tag_ : string)
    (attrs : list (string * option string)) :
  (forall h, find_autoclose_on_open (set_heap self h) tag_ = 0) ->
  open_tag self tag_ attrs = Ok self' ->
  stack self' = stack self ++ [length (heap self)]
  /\ in_svg self' = (String.eqb tag_ "svg" || in_svg self).
Proof.
  intros H0. unfold open_tag, check_autoclose_on_open. rewrite H0.
  set (self1 := set_heap self _).
  change (force_close 0 self1 tag_) with (Ok self1).
  destruct (root self1) as [r|].
  - change (stack self1) with (stack self).
    destruct (stack self) as [|id st] eqn:Hst; [discriminate|].
    simpl. rewrite Hst. destruct (last (id :: st)) as [parent|]; [|discriminate].
    simpl. intros [= <-]. destruct (String.eqb tag_ "svg"); simpl; by rewrite Hst.
  - simpl. intros [= <-]. destruct (String.eqb tag_ "svg"); done.
Qed.

Lemma lower_case_hack_svg (self : Parser) (raw : string) :
  Py.lower raw = "svg" -> Py.lower (case_hack self raw) = "svg".
Proof.
  intros H. unfold case_hack.
  destruct (should_retain_case self None); [done|]. by rewrite H.
Qed.

(** C8, as the code has it.  The builder sets [in_svg] when the name it is
    handed is exactly svg.  For an element whose name is svg in some
    casing: with [retain_case] false the flag is true once the element is
    opened (the name arrives lowercased, or the flag was already true);
    with [retain_case] true the name arrives as written, and the flag is
    true afterwards only if it already was or the name is spelled svg. *)
Theorem open_svg_sets_in_svg (self self' : Parser) (raw : string)
    (attrs : list (string * option string)) :
  Py.lower raw = "svg" ->
  open_tag self (case_hack self raw) attrs = Ok self' ->
  in_svg self' = (negb (retain_case self) || in_svg self || String.eqb raw "svg").
Proof.
  intros Hl Hopen.
  apply open_tag_without_autoclose in Hopen as [_ ->].
  - unfold case_hack, should_retain_case.
    destruct (retain_case self), (in_svg self); simpl;
      rewrite ?Hl; simpl; by rewrite ?orb_true_r, ?orb_false_r.
  - intros h. apply find_autoclose_svg. by apply lower_case_hack_svg.
Qed.

Lemma open_svg_sets_in_svg_witness :
  exists self',
    open_tag (init false) (case_hack (init false) "SVG") [] = Ok self'
    /\ in_svg self' = true.
Proof.
  eexists. split; [vm_compute; reflexivity|].
  apply (open_svg_sets_in_svg (init false) _ "SVG" []);
    [reflexivity | vm_compute; reflexivity].
Defined.

(** C8 fails as stated: with [retain_case] set, opening an element written
    SVG leaves [in_svg] false. *)
Lemma uppercase_svg_under_retain_case :
  match Inert.feed_all (init true) ["<SVG>"] with
  | Ok self =>
      stack self = [0] /\ tag (deref self 0) = "SVG" /\ in_svg self = false
  | Raise _ => False
  end
  /\ match open_tag (init true) (case_hack (init true) "SVG") [] with
     | Ok self => in_svg self = false
     | Raise _ => False
     end.
Proof. vm_compute. repeat split. Qed.

(** ** Void elements (C7) *)

Lemma wf_init (rc : bool) : wf (init rc).
Proof.
  split.
  - intros id Hid. apply elem_of_nil in Hid. done.
  - intros id e He. done.
Qed.

Lemma elem_of_removelast {A} (l : list A) (x : A) :
  x ∈ removelast l -> x ∈ l.
Proof.
  induction l as [|a l IH]; [done|].
  destruct l as [|b l]; simpl.
  - intros H. apply elem_of_nil in H. done.
  - intros H. apply elem_of_cons in H as [->|H]; [left|right; by apply IH].
Qed.

Lemma last_removelast {A} (l : list A) (x : A) :
  last l = Some x -> l = removelast l ++ [x].
Proof.
  induction l as [|a l IH]; [done|].
  destruct l as [|b l]; simpl.
  - by intros [= ->].
  - intros H. f_equal. by apply IH.
Qed.

Lemma close_tag_frame (self self' : Parser) (tag_ : string) (force : bool) :
  close_tag self tag_ force = Ok self' ->
  heap self' = heap self
  /\ stack self' = removelast (stack self)
  /\ root self' = root self.
Proof.
  intros H. apply close_tag_Ok in H as (top & _ & _ & ->).
  destruct (String.eqb (tag (deref self top)) "svg"); done.
Qed.

Lemma force_close_frame (n : nat) (self self' : Parser) (tag_ : string) :
  force_close n self tag_ = Ok self' ->
  heap self' = heap self
  /\ (forall id, id ∈ stack self' -> id ∈ stack self)
  /\ root self' = root self.
Proof.
  revert self. induction n as [|n IH]; intros self; simpl.
  - by intros [= <-].
  - intros H. inv_bind H.
    apply close_tag_frame in Hself0 as (Hh & Hs & Hr).
    apply IH in H as (Hh' & Hs' & Hr').
    split; [congruence|]. split; [|congruence].
    intros id Hid. apply elem_of_removelast. rewrite <- Hs. by apply Hs'.
Qed.

Lemma tags_alter (f : element -> element) (i : nat) (h : list element) :
  (forall e, tag (f e) = tag e) -> tag <$> alter f i h = tag <$> h.
Proof.
  intros Hf. revert i. induction h as [|e h IH]; intros i; [done|].
  destruct i as [|i]; simpl.
  - by rewrite Hf.
  - f_equal. apply IH.
Qed.

(** A change of the slots of one element that is not void keeps void
    elements childless. *)
Lemma void_childless_alter (f : element -> element) (i : nat)
    (h : list element) (t : string) :
  (forall e, tag (f e) = tag e) ->
  (tag <$> h) !! i = Some t -> ~ void t ->
  void_childless h -> void_childless (alter f i h).
Proof.
  intros Hf Hi Hnv Hwf id e He Hv.
  destruct (decide (i = id)) as [->|Hne].
  - rewrite list_lookup_alter_eq in He.
    rewrite list_lookup_fmap in Hi.
    destruct (h !! id) as [e0|]; [|done]. simpl in He, Hi.
    injection He as <-. injection Hi as <-. rewrite Hf in Hv. done.
  - rewrite list_lookup_alter_ne in He by done. by apply (Hwf id).
Qed.

Lemma void_childless_alloc (h : list element) (t : string)
    (a : list (string * string)) :
  void_childless h -> void_childless (h ++ [Element t a None None []]).
Proof.
  intros Hwf id e He Hv.
  apply lookup_app_Some in He as [He|[_ He]]; [by apply (Hwf id)|].
  apply list_lookup_singleton_Some in He as [_ <-]. done.
Qed.

Lemma stack_ok_mono (st st' : list nat) (tg more : list string) :
  (forall id, id ∈ st' -> id ∈ st) ->
  stack_ok st tg -> stack_ok st' (tg ++ more).
Proof.
  intros Hsub Hok id Hid. destruct (Hok id (Hsub id Hid)) as (t & Ht & Hnv).
  exists t. split; [|done]. by apply lookup_app_l_Some.
Qed.

(** The outcome of a successful [open_tag]. *)
Lemma open_tag_Ok (self self1 : Parser) (tag_ : string)
    (attrs : list (string * option string)) :
  wf self ->
  open_tag self tag_ attrs = Ok self1 ->
  exists s,
    stack self1 = s ++ [length (heap self)]
    /\ (forall id, id ∈ s -> id ∈ stack self)
    /\ tags self1 = tags self ++ [tag_]
    /\ void_childless (heap self1).
Proof.
  intros [Hst Hvc]. unfold open_tag.
  set (e0 := Element tag_ (attrib_update [] attrs) None None []).
  set (self0 := set_heap self (heap self ++ [e0])).
  intros H. inv_bind H.
  assert (Hout : stack self1 = stack self2 ++ [length (heap self)]
                 /\ heap self1 = heap self2).
  { injection H as <-. destruct (String.eqb tag_ "svg"); done. }
  destruct Hout as [Hs1 Hh1]. clear H.
  exists (stack self2). split; [done|]. unfold tags. rewrite Hh1.
  destruct (root self0) as [r|].
  - change (stack self0) with (stack self) in Hself2.
    destruct (stack self) as [|id0 st0] eqn:Hstack; [discriminate|].
    inv_bind Hself2. unfold check_autoclose_on_open in Hself3.
    apply force_close_frame in Hself3 as (Hh3 & Hs3 & _).
    change (stack self0) with (stack self) in Hs3.
    change (heap self0) with (heap self ++ [e0]) in Hh3.
    destruct (last (stack self3)) as [parent|] eqn:Hlast; [|discriminate].
    injection Hself2 as <-. simpl. rewrite Hh3.
    assert (Hparent : parent ∈ stack self).
    { apply Hs3. by apply last_Some_elem_of. }
    rewrite Hstack in Hparent.
    destruct (Hst parent Hparent) as (t & Ht & Hnv).
    split; [by rewrite <- Hstack|].
    split.
    + rewrite tags_alter by done. by rewrite fmap_app.
    + apply (void_childless_alter _ _ _ t); [done| |done|].
      * rewrite fmap_app. by apply lookup_app_l_Some.
      * by apply void_childless_alloc.
  - injection Hself2 as <-. simpl. split; [done|]. split.
    + by rewrite fmap_app.
    + by apply void_childless_alloc.
Qed.

Lemma tag_of_tags (self : Parser) (id : nat) (t : string) :
  tags self !! id = Some t -> tag (deref self id) = t.
Proof.
  unfold tags, deref. rewrite list_lookup_fmap.
  destruct (heap self !! id) as [e|] eqn:He; [|done].
  simpl. intros [= <-]. by rewrite (list_lookup_total_correct _ _ _ He).
Qed.

Lemma void_childless_alter_slots (f : element -> element) (i : nat)
    (h : list element) :
  (forall e, tag (f e) = tag e /\ children (f e) = children e) ->
  void_childless h -> void_childless (alter f i h).
Proof.
  intros Hf Hwf id e He Hv.
  destruct (decide (i = id)) as [->|Hne].
  - rewrite list_lookup_alter_eq in He.
    destruct (h !! id) as [e0|] eqn:He0; [|done]. simpl in He.
    injection He as <-. destruct (Hf e0) as [Ht Hc].
    rewrite Hc. apply (Hwf id e0 He0). by rewrite <- Ht.
  - rewrite list_lookup_alter_ne in He by done. by apply (Hwf id).
Qed.

Lemma stack_ok_same (st st' : list nat) (tg : list string) :
  (forall id, id ∈ st' -> id ∈ st) -> stack_ok st tg -> stack_ok st' tg.
Proof.
  intros Hsub Hok. rewrite <- (app_nil_r tg). by apply (stack_ok_mono st).
Qed.

(** After a successful [open_tag] the non-forced [close_tag] of the same
    name cannot fail: the top of the stack is the new element and carries
    the very tag that is being closed. *)
Lemma close_after_open (self self1 : Parser) (tag_ : string)
    (attrs : list (string * option string)) :
  wf self ->
  open_tag self tag_ attrs = Ok self1 ->
  exists self2,
    close_tag self1 tag_ false = Ok self2
    /\ heap self2 = heap self1
    /\ stack self1 = stack self2 ++ [length (heap self)].
Proof.
  intros Hwf Hopen.
  pose proof (open_tag_Ok _ _ _ _ Hwf Hopen) as (s & Hs & _ & Htg & _).
  assert (Htop : tag (deref self1 (length (heap self))) = tag_).
  { apply tag_of_tags. rewrite Htg. apply list_lookup_middle.
    unfold tags. by rewrite length_fmap. }
  destruct (close_tag self1 tag_ false) as [self2|e] eqn:Hclose.
  - exists self2. split; [done|].
    apply close_tag_frame in Hclose as (Hh & Hst & _).
    split; [done|]. by rewrite Hst, Hs, removelast_last.
  - unfold close_tag in Hclose. rewrite Hs, last_snoc, Htop in Hclose.
    rewrite String.eqb_refl in Hclose. simpl in Hclose.
    destruct (String.eqb tag_ "svg"); discriminate.
Qed.

Lemma handle_starttag_Ok (self self' : Parser) (tag_ : string)
    (attrs : list (string * option string)) :
  wf self ->
  handle_starttag self tag_ attrs = Ok self' ->
  wf self' /\ tags self' = tags self ++ [tag_]
  /\ (void tag_ ->
      exists self1,
        open_tag self tag_ attrs = Ok self1
        /\ stack self1 = stack self' ++ [length (heap self)]
        /\ heap self' = heap self1).
Proof.
  intros Hwf H. unfold handle_starttag in H. inv_bind H. inv_bind H.
  pose proof (open_tag_Ok _ _ _ _ Hwf Hself0) as (s & Hs & Hsub & Htg & Hvc).
  assert (Hout : heap self' = heap self1 /\ stack self' = stack self1).
  { injection H as <-.
    destruct (bool_decide (Py.lower tag_ ∈ CDATA_CONTENT_ELEMENTS_V2)); done. }
  destruct Hout as [Hh' Hs']. clear H. destruct Hwf as [Hst _].
  destruct (bool_decide_reflect (Py.lower tag_ ∈ VOID_TAGS)) as [Hv|Hnv].
  - apply close_tag_frame in Hself1 as (Hh1 & Hs1 & _).
    rewrite Hs, removelast_last in Hs1.
    assert (Htg' : tags self' = tags self ++ [tag_])
      by (unfold tags in *; by rewrite Hh', Hh1).
    split; [split|split; [done|]].
    + rewrite Htg', Hs', Hs1. by apply (stack_ok_mono (stack self)).
    + by rewrite Hh', Hh1.
    + intros _. exists self0. split; [done|]. split; [|congruence].
      by rewrite Hs', Hs1.
  - injection Hself1 as <-.
    assert (Htg' : tags self' = tags self ++ [tag_])
      by (unfold tags in *; by rewrite Hh').
    split; [split|split; [done|]].
    + rewrite Htg', Hs', Hs. intros id Hid.
      apply elem_of_app in Hid as [Hid|Hid].
      * by apply (stack_ok_mono (stack self) s (tags self) [tag_] Hsub Hst).
      * apply list_elem_of_singleton in Hid as ->. exists tag_.
        split; [|done]. apply list_lookup_middle. unfold tags.
        by rewrite length_fmap.
    + by rewrite Hh'.
    + intros Hv. done.
Qed.

Lemma handle_starttag_void_total (self self1 : Parser) (tag_ : string)
    (attrs : list (string * option string)) :
  wf self -> void tag_ ->
  open_tag self tag_ attrs = Ok self1 ->
  exists self', handle_starttag self tag_ attrs = Ok self'.
Proof.
  intros Hwf Hv Hopen. unfold handle_starttag. rewrite Hopen.
  rewrite (bool_decide_eq_true_2 _ Hv).
  change (Ok self1 ≫= ?f) with (f self1). cbv beta.
  destruct (close_after_open _ _ _ _ Hwf Hopen) as (self2 & -> & _).
  simpl. by eexists.
Qed.

Lemma handle_startendtag_Ok (self self' : Parser) (tag_ : string)
    (attrs : list (string * option string)) :
  wf self ->
  handle_startendtag self tag_ attrs = Ok self' ->
  wf self' /\ tags self' = tags self ++ [tag_]
  /\ exists self1,
       open_tag self tag_ attrs = Ok self1
       /\ stack self1 = stack self' ++ [length (heap self)]
       /\ heap self' = heap self1.
Proof.
  intros Hwf H. unfold handle_startendtag in H. inv_bind H.
  pose proof (open_tag_Ok _ _ _ _ Hwf Hself0) as (s & Hs & Hsub & Htg & Hvc).
  destruct (close_after_open _ _ _ _ Hwf Hself0) as (self2 & Hc & Hh & Hs').
  rewrite Hc in H. injection H as <-.
  assert (Hs2 : stack self2 = s).
  { rewrite Hs in Hs'. by apply app_inj_tail in Hs' as [-> _]. }
  destruct Hwf as [Hst _].
  assert (Htg' : tags self2 = tags self ++ [tag_])
    by (unfold tags in *; by rewrite Hh).
  split; [split|split; [done|]].
  - rewrite Htg', Hs2. by apply (stack_ok_mono (stack self)).
  - by rewrite Hh.
  - exists self0. done.
Qed.

Lemma handle_startendtag_total (self self1 : Parser) (tag_ : string)
    (attrs : list (string * option string)) :
  wf self ->
  open_tag self tag_ attrs = Ok self1 ->
  exists self', handle_startendtag self tag_ attrs = Ok self'.
Proof.
  intros Hwf Hopen. unfold handle_startendtag. rewrite Hopen.
  destruct (close_after_open _ _ _ _ Hwf Hopen) as (self2 & Hc & _).
  exists self2. exact Hc.
Qed.

Lemma handle_endtag_Ok (self self' : Parser) (tag_ : string) :
  wf self -> handle_endtag self tag_ = Ok self' ->
  wf self' /\ tags self' = tags self.
Proof.
  intros [Hst Hvc] H. unfold handle_endtag in H.
  destruct (bool_decide (Py.lower tag_ ∈ VOID_TAGS)).
  - by injection H as <-.
  - apply close_tag_frame in H as (Hh & Hs & _).
    assert (Htg' : tags self' = tags self) by (unfold tags; by rewrite Hh).
    split; [split|done].
    + rewrite Htg', Hs. apply (stack_ok_same (stack self)); [|done].
      intros id. apply elem_of_removelast.
    + by rewrite Hh.
Qed.

Lemma handle_data_Ok (self self' : Parser) (data : string) :
  wf self -> handle_data self data = Ok self' ->
  wf self' /\ tags self' = tags self.
Proof.
  intros [Hst Hvc] H. unfold handle_data in H.
  destruct (last (stack self)) as [top|] eqn:Htop;
    [|by injection H as <-].
  destruct (Hst top (last_Some_elem_of _ _ Htop)) as (t & Ht & Hnv).
  destruct (last (children (deref self top))) as [[c|d ct]|];
    injection H as <-; unfold wf, tags; simpl;
    (rewrite tags_alter by done); (split; [split; [done|]|done]).
  - by apply void_childless_alter_slots.
  - by apply (void_childless_alter _ _ _ t).
  - by apply void_childless_alter_slots.
Qed.

Lemma handle_comment_Ok (self self' : Parser) (data : string) :
  wf self -> handle_comment self data = Ok self' ->
  wf self' /\ tags self' = tags self.
Proof.
  intros [Hst Hvc] H. unfold handle_comment in H.
  destruct (last (stack self)) as [top|] eqn:Htop; [|discriminate].
  destruct (Hst top (last_Some_elem_of _ _ Htop)) as (t & Ht & Hnv).
  injection H as <-. unfold wf, tags. simpl.
  rewrite tags_alter by done. split; [split; [done|]|done].
  by apply (void_childless_alter _ _ _ t).
Qed.

Lemma dispatch_Ok (self self' : Parser) (c : call) :
  wf self -> dispatch self c = Ok self' ->
  wf self' /\ exists more, tags self' = tags self ++ more.
Proof.
  intros Hwf H. destruct c as [t a|t a|t|d|d]; simpl in H.
  - apply handle_starttag_Ok in H as (? & ? & _); eauto.
  - apply handle_startendtag_Ok in H as (? & ? & _); eauto.
  - apply handle_endtag_Ok in H as (? & ->); [|done].
    split; [done|]. exists []. by rewrite app_nil_r.
  - apply handle_data_Ok in H as (? & ->); [|done].
    split; [done|]. exists []. by rewrite app_nil_r.
  - apply handle_comment_Ok in H as (? & ->); [|done].
    split; [done|]. exists []. by rewrite app_nil_r.
Qed.

Lemma step_Ok (allowed : call -> bool) (self self' : Parser) :
  wf self -> step allowed self self' ->
  wf self' /\ exists more, tags self' = tags self ++ more.
Proof.
  intros Hwf Hstep. revert Hwf.
  destruct Hstep as [self c self' _ H|self d|self p']; intros Hwf.
  - exact (dispatch_Ok self self' c Hwf H).
  - split; [exact Hwf|]. exists []. by rewrite app_nil_r.
  - split; [exact Hwf|]. exists []. by rewrite app_nil_r.
Qed.

Lemma steps_Ok (allowed : call -> bool) (self self' : Parser) :
  wf self -> rtc (step allowed) self self' ->
  wf self' /\ exists more, tags self' = tags self ++ more.
Proof.
  intros Hwf H. induction H as [self|self self1 self' H1 _ IH].
  - split; [done|]. exists []. by rewrite app_nil_r.
  - apply step_Ok in H1 as (Hwf1 & more1 & Hm1); [|done].
    destruct (IH Hwf1) as (Hwf' & more & Hm).
    split; [done|]. exists (more1 ++ more). by rewrite Hm, Hm1, app_assoc.
Qed.

(** A sequence of handler calls is a sequence of steps. *)
Lemma run_steps (allowed : call -> bool) (cs : list call)
    (self self' : Parser) :
  forallb allowed cs = true ->
  run self cs = Ok self' -> rtc (step allowed) self self'.
Proof.
  revert self. induction cs as [|c cs IH]; intros self Hcs H.
  - injection H as <-. apply rtc_refl.
  - cbn [forallb] in Hcs. apply andb_true_iff in Hcs as [Hc Hcs].
    cbn [run] in H. inv_bind H.
    eapply rtc_l; [by apply (step_call _ _ c)|by apply IH].
Qed.

(** C7. In any state a parse can reach from a fresh parser, an open
    event whose lowercased name is a void tag (a start tag, or a self-closed
    start tag when [selfclosed] is set) fails only if [open_tag] itself
    fails; otherwise the new element is popped again before the handler
    returns, and from then on, whatever happens to the parser, it keeps its
    tag, has no child and is never on the stack (so it is never the element
    that later text, comments or children are attached to). *)
Theorem void_element_closed_on_open (rc : bool) (self : Parser)
    (tag_ : string) (attrs : list (string * option string))
    (selfclosed : bool) :
  rtc (step any_call) (init rc) self ->
  Py.lower tag_ ∈ VOID_TAGS ->
  match dispatch self (if selfclosed then Startendtag tag_ attrs
                       else Starttag tag_ attrs) with
  | Raise e => open_tag self tag_ attrs = Raise e
  | Ok self' =>
      let new := length (heap self) in
      (exists self1,
         open_tag self tag_ attrs = Ok self1
         /\ stack self1 = stack self' ++ [new]
         /\ heap self' = heap self1)
      /\ forall self'',
           rtc (step any_call) self' self'' ->
           tag (deref self'' new) = tag_
           /\ children (deref self'' new) = []
           /\ new ∉ stack self''
  end.
Proof.
  intros Hreach Hv.
  apply steps_Ok in Hreach as [Hwf _]; [|apply wf_init].
  destruct (dispatch self _) as [self'|e] eqn:Hstart.
  - assert (Hfacts : wf self' /\ tags self' = tags self ++ [tag_]
                     /\ exists self1,
                          open_tag self tag_ attrs = Ok self1
                          /\ stack self1 = stack self' ++ [length (heap self)]
                          /\ heap self' = heap self1).
    { destruct selfclosed; cbn [dispatch] in Hstart.
      - by apply handle_startendtag_Ok.
      - apply handle_starttag_Ok in Hstart as (? & ? & Hpop); [|done].
        split; [done|]. split; [done|]. by apply Hpop. }
    destruct Hfacts as (Hwf' & Htg & Hpop). split; [done|].
    intros self'' Hreach'.
    apply steps_Ok in Hreach' as ([Hst'' Hvc''] & more & Hm); [|done].
    assert (Hnew : tags self'' !! length (heap self) = Some tag_).
    { rewrite Hm, Htg, <- app_assoc. apply list_lookup_middle.
      unfold tags. by rewrite length_fmap. }
    split; [by apply tag_of_tags|].
    pose proof Hnew as Hnew'. unfold tags in Hnew'.
    rewrite list_lookup_fmap in Hnew'.
    destruct (heap self'' !! length (heap self)) as [e|] eqn:He; [|done].
    injection Hnew' as Htag. split.
    + unfold deref. rewrite (list_lookup_total_correct _ _ _ He).
      apply (Hvc'' _ _ He). unfold void. by rewrite Htag.
    + intros Hin. destruct (Hst'' _ Hin) as (t & Ht & Hnv).
      rewrite Hnew in Ht. injection Ht as <-. done.
  - destruct (open_tag self tag_ attrs) as [self1|e1] eqn:Hopen.
    + exfalso. destruct selfclosed; cbn [dispatch] in Hstart.
      * destruct (handle_startendtag_total _ _ _ _ Hwf Hopen) as (s' & Hs').
        congruence.
      * destruct (handle_starttag_void_total _ _ _ _ Hwf Hv Hopen)
          as (s' & Hs').
        congruence.
    + destruct selfclosed; cbn [dispatch] in Hstart;
        [unfold handle_startendtag in Hstart|unfold handle_starttag in Hstart];
        rewrite Hopen in Hstart; simpl in Hstart; congruence.
Qed.

Lemma void_element_closed_on_open_witness :
  let self := mkParser [Element "div" [] None None []] [0] (Some 0) false
                       false EmptyString None in
  match handle_starttag self "BR" [] with
  | Raise e => open_tag self "BR" [] = Raise e
  | Ok self' =>
      let new := length (heap self) in
      (exists self1,
         open_tag self "BR" [] = Ok self1
         /\ stack self1 = stack self' ++ [new]
         /\ heap self' = heap self1)
      /\ forall self'',
           rtc (step any_call) self' self'' ->
           tag (deref self'' new) = "BR"
           /\ children (deref self'' new) = []
           /\ new ∉ stack self''
  end.
Proof.
  intros self.
  apply (void_element_closed_on_open false self "BR" [] false).
  - apply (run_steps any_call [Starttag "div" []]); reflexivity.
  - apply (bool_decide_unpack _). vm_compute. exact I.
Defined.

(** ** The parse entry point on input without markup (C2) *)

Lemma find_interesting_none (s : string) :
  Py.contains "<" s = false -> Py.contains "&" s = false ->
  Py.find Re.interesting_normal s = None.
Proof.
  induction s as [|c s IH]; [done|].
  cbn [Py.contains Py.find]. intros H1 H2.
  apply orb_false_iff in H1 as [H1 H1'].
  apply orb_false_iff in H2 as [H2 H2'].
  assert (Hc : Re.interesting_normal c = false)
    by (unfold Re.interesting_normal, Py.is_char; by rewrite H1, H2).
  by rewrite Hc, IH.
Qed.

Lemma from_0 (s : string) : Py.from 0 s = s.
Proof. by destruct s. Qed.

Lemma from_length (s : string) : Py.from (String.length s) s = EmptyString.
Proof. induction s as [|c s IH]; [done|]. simpl. exact IH. Qed.

Section EntryFacts.

Variable parse_declaration : string -> nat -> res (option nat).
Variable goahead_reference : Parser -> nat -> res (Parser * flow).
Variable replace_entities : string -> string.

#[local] Abbreviation feed' :=
  (feed parse_declaration goahead_reference replace_entities).
#[local] Abbreviation feed_all' :=
  (feed_all parse_declaration goahead_reference replace_entities).
#[local] Abbreviation parse_html' :=
  (parse_html parse_declaration goahead_reference replace_entities).

(** Text without [<] and [&], fed to a parser whose stack is empty and whose
    buffer is empty, is scanned in one round, handed to [handle_data], and
    dropped there. *)
Lemma feed_plain_text (self : Parser) (html : string) :
  stack self = [] -> rawdata self = EmptyString -> interesting self = None ->
  Py.contains "<" html = false -> Py.contains "&" html = false ->
  feed' self html = Ok self.
Proof.
  intros Hst Hraw Hint Hlt Hamp. unfold feed', goahead. rewrite Hraw.
  change (EmptyString +:+ html) with html.
  change (rawdata (set_rawdata self html)) with html.
  destruct html as [|c r] eqn:Hhtml.
  - simpl. destruct self; simpl in *. by subst.
  - rewrite <- Hhtml in *. cbn [goahead_loop].
    change (rawdata (set_rawdata self html)) with html.
    change (interesting (set_rawdata self html)) with (interesting self).
    rewrite Hint.
    assert (Hn : Nat.ltb 0 (String.length html) = true)
      by (rewrite Hhtml; done).
    rewrite Hn. cbn [negb]. unfold Re.interesting_search.
    rewrite from_0, find_interesting_none by done.
    cbn [fmap option_fmap option_map default]. rewrite Hn.
    unfold handle_data at 1.
    change (stack (set_rawdata self html)) with (stack self). rewrite Hst.
    cbn [last mbind res_bind]. rewrite Nat.eqb_refl.
    rewrite from_length. destruct self; simpl in *. by subst.
Qed.

(** [self.root] is assigned by [open_tag] only. *)
Lemma steps_without_open (self self' : Parser) :
  rtc (step no_open) self self' -> root self' = root self.
Proof.
  intros H. induction H as [self|self self1 self' H1 _ IH]; [done|].
  rewrite IH. clear IH.
  destruct H1 as [self0 c self1 Hc H|self0 d|self0 p']; [|done|done].
  destruct c as [t a|t a|t|d|d]; try discriminate; cbn [dispatch] in H.
  - unfold handle_endtag in H.
    destruct (bool_decide (Py.lower t ∈ VOID_TAGS)); [by injection H as <-|].
    by apply close_tag_frame in H as (_ & _ & ->).
  - unfold handle_data in H.
    destruct (last (stack self0)) as [top|]; [|by injection H as <-].
    destruct (last (children (deref self0 top))) as [[c|d' ct]|];
      by injection H as <-.
  - unfold handle_comment in H.
    destruct (last (stack self0)) as [top|]; [|discriminate].
    by injection H as <-.
Qed.

(** C2, as the code has it.  There is no empty-document error.  For input
    text without [<] and [&] the entry point returns [None] (its docstring:
    returns None if no HTML detected); and whatever the tokenizer does to
    the parser, as long as it makes no call that opens an element and no
    call raises, the root stays [None], which is what [parse_html]
    returns. *)
Theorem parse_html_without_tags (html : string) (retain_case : bool)
    (self : Parser) :
  Py.contains "<" html = false ->
  Py.contains "&" html = false ->
  rtc (step no_open) (init retain_case) self ->
  parse_html' html retain_case = Ok None /\ root_tree self = None.
Proof.
  intros Hlt Hamp Hreach. split.
  - unfold parse_html. rewrite feed_plain_text by done. done.
  - unfold root_tree. by rewrite (steps_without_open _ _ Hreach).
Qed.

(** C5, as the code has it.  Feeding the text up to the second li's content
    builds ul with two li children, siblings, with leading text a and b: the
    second li's open force-closes the first.  The end tag of ul then meets
    the second li on top of the stack and the parse fails with a parse
    error; with that li closed explicitly the entry point returns the
    tree. *)
Theorem li_siblings_need_explicit_close :
  feed' (init false) "<ul><li>a<li>b"
  = Ok (mkParser [Element "ul" [] None None [CElem 1; CElem 2];
                  Element "li" [] (Some "a") None [];
                  Element "li" [] (Some "b") None []]
                 [0; 2] (Some 0) false false EmptyString None)
  /\ parse_html' "<ul><li>a<li>b</ul>" false
     = Raise (HTMLParseError (UnexpectedCloseTag "ul" "li"))
  /\ parse_html' "<ul><li>a<li>b</li></ul>" false
     = Ok (Some (TElement "ul" [] None None
                   [TElement "li" [] (Some "a") None [];
                    TElement "li" [] (Some "b") None []])).
Proof. repeat split; vm_compute; reflexivity. Qed.

(** C4: the two ways of feeding an a element that carries the Chrome
    artifact.  Fed whole, the start tag is accepted and a is the root; with
    the chunk boundary right after the artifact's first double quote,
    [check_for_whole_start_tag] meets that quote as [next] at the end of the
    first chunk and raises malformed start tag instead of waiting for more
    input. *)
Theorem chrome_artifact_split_across_chunks :
  feed_all' (init false) ["<a " +:+ Re.chrome_hack +:+ ">"]
  = Ok (mkParser [Element "a" [] None None []] [0] (Some 0) false false
                 EmptyString None)
  /\ feed_all' (init false)
       ["<a " +:+ Py.dquote; "=" +:+ Py.dquote +:+ Py.dquote +:+ ">"]
     = Raise (HTMLParseError MalformedStartTag)
  /\ check_for_whole_start_tag
       (set_rawdata (init false) ("<a " +:+ Py.dquote)) 0
     = Raise (HTMLParseError MalformedStartTag)
  /\ check_for_whole_start_tag (set_rawdata (init false) "<a ") 0 = Ok None.
Proof. repeat split; vm_compute; reflexivity. Qed.

(** A second way in which chunking shows: inside script the end tag is only
    recognised when the buffer holds it whole. *)
Lemma script_end_tag_split_across_chunks :
  root_tree <$> feed_all' (init false) ["<script>a<b</script>"]
  = Ok (Some (TElement "script" [] (Some "a<b") None []))
  /\ root_tree <$> feed_all' (init false) ["<script>a<b</scr"; "ipt>"]
     = Ok (Some (TElement "script" [] (Some "a<b</script>") None [])).
Proof. repeat split; vm_compute; reflexivity. Qed.

End EntryFacts.

Lemma parse_html_without_tags_witness :
  let self := set_rawdata (init true) " more" in
  Inert.parse_html "hello world" true = Ok None
  /\ root_tree self = None.
Proof.
  intros self.
  apply (parse_html_without_tags Inert.parse_declaration
           Inert.goahead_reference Inert.replace_entities
           "hello world" true self); [reflexivity | reflexivity |].
  apply (rtc_l _ _ (init true));
    [by apply (step_call no_open _ (Endtag "br"))|].
  apply rtc_once. apply step_rawdata.
Defined.

(** C2 fails as stated: text without any tag makes the entry point return
    [None]; nothing is raised. *)
Lemma text_without_tags_returns_None :
  Inert.parse_html "hello world" false = Ok None.
Proof. vm_compute. reflexivity. Qed.

(** C5 fails as stated: its input raises a parse error at the end tag of
    ul. *)
Lemma unclosed_li_before_ul_end :
  Inert.parse_html "<ul><li>a<li>b</ul>" false
  = Raise (HTMLParseError (UnexpectedCloseTag "ul" "li")).
Proof. vm_compute. reflexivity. Qed.

(** ** Browser artifacts in the attribute scan (C6) *)

Lemma lower_char_artifact (c : ascii) :
  Py.lower_char c = "?"%char \/ Py.lower_char c = ascii_of_nat 34 ->
  Py.lower_char c = c.
Proof.
  destruct c as [[] [] [] [] [] [] [] []]; vm_compute; intros [H|H];
    first [reflexivity | discriminate H].
Qed.

Lemma lower_artifact (name : string) :
  artifact (Py.lower name) -> artifact name.
Proof.
  unfold artifact, Py.dquote.
  destruct name as [|c [|c' r]]; cbn [Py.lower]; intros [H|H];
    try discriminate H; injection H as H;
    rewrite <- (lower_char_artifact c) by (rewrite H; auto);
    rewrite H; auto.
Qed.

Lemma ATTRFIND_progress (rawdata : string) (k m_end : nat) (name : string)
    (value : option string) :
  Re.ATTRFIND rawdata k = Some (name, value, m_end) -> k < m_end.
Proof.
  unfold Re.ATTRFIND.
  set (s1 := Py.from _ (Py.from k rawdata)).
  destruct (Re.attr_name s1) as [n|] eqn:Hn; [|discriminate].
  assert (0 < n).
  { unfold Re.attr_name in Hn. destruct s1 as [|c r]; [discriminate|].
    destruct (Re.name_start c); [injection Hn as <-; lia|].
    destruct (_ || _); [injection Hn as <-; lia|discriminate]. }
  destruct (Py.from _ (Py.from n s1)) as [|c r]; [intros [= _ _ <-]; lia|].
  destruct c as [[] [] [] [] [] [] [] []]; intros [= _ _ <-]; lia.
Qed.

Section AttrFacts.

Variable parse_declaration : string -> nat -> res (option nat).
Variable goahead_reference : Parser -> nat -> res (Parser * flow).
Variable replace_entities : string -> string.

#[local] Abbreviation attr_loop' := (attr_loop replace_entities).
#[local] Abbreviation parse_html' :=
  (parse_html parse_declaration goahead_reference replace_entities).

(** The bound [endpos - k] handed to the loop by [parse_starttag] is never
    the reason the loop stops: any larger bound gives the same result. *)
Lemma attr_loop_fuel (f1 f2 : nat) (self : Parser) (final_tag : string)
    (endpos k : nat) (attrs : list (string * option string)) :
  endpos - k <= f1 -> endpos - k <= f2 ->
  attr_loop' f1 self final_tag endpos k attrs
  = attr_loop' f2 self final_tag endpos k attrs.
Proof.
  revert f2 k attrs. induction f1 as [|f1 IH]; intros f2 k attrs H1 H2.
  - destruct f2 as [|f2]; [done|]. cbn [attr_loop].
    by rewrite (proj2 (Nat.ltb_ge k endpos)) by lia.
  - destruct f2 as [|f2]; cbn [attr_loop].
    + by rewrite (proj2 (Nat.ltb_ge k endpos)) by lia.
    + destruct (Nat.ltb_spec k endpos) as [Hlt|Hge]; [|done].
      destruct (Re.ATTRFIND (rawdata self) k) as [[[n v] e]|] eqn:Hm; [|done].
      apply ATTRFIND_progress in Hm.
      destruct (_ || _); apply IH; lia.
Qed.

Lemma attr_loop_names (fuel : nat) (self : Parser) (final_tag : string)
    (endpos k : nat) (attrs : list (string * option string)) :
  Forall (fun nv => ~ artifact (fst nv)) attrs ->
  Forall (fun nv => ~ artifact (fst nv))
         (fst (attr_loop' fuel self final_tag endpos k attrs)).
Proof.
  revert k attrs. induction fuel as [|fuel IH]; intros k attrs Hattrs; [done|].
  cbn [attr_loop].
  destruct (Nat.ltb k endpos); [|done].
  destruct (Re.ATTRFIND (rawdata self) k) as [[[n v] e]|]; [|done].
  destruct (String.eqb_spec n "?") as [Hq|Hq]; [by apply IH|].
  destruct (String.eqb_spec n Py.dquote) as [Hd|Hd]; [by apply IH|].
  cbn [orb]. apply IH. apply Forall_app. split; [done|].
  apply Forall_singleton. cbn [fst].
  destruct (negb _); [|by intros [?|?]].
  intros Ha. by apply lower_artifact in Ha as [?|?].
Qed.

(** C6. In the attribute loop of [parse_starttag], a match of [ATTRFIND]
    whose captured name is the question mark or the double quote is
    consumed and dropped: the loop goes on from the end of the match with
    the attribute list as it was, and no name in the extracted list is ever
    one of the two artifacts.  The a element with href x followed by a
    stray question mark parses to a with the single attribute href = x. *)
Theorem artifact_attribute_discarded (self : Parser) (final_tag : string)
    (endpos k m_end : nat) (name : string) (value : option string)
    (attrs : list (string * option string)) :
  k < endpos ->
  Re.ATTRFIND (rawdata self) k = Some (name, value, m_end) ->
  artifact name ->
  attr_loop' (endpos - k) self final_tag endpos k attrs
  = attr_loop' (endpos - m_end) self final_tag endpos m_end attrs
  /\ k < m_end
  /\ Forall (fun nv => ~ artifact (fst nv))
            (fst (attr_loop' (endpos - k) self final_tag endpos k []))
  /\ parse_html' ("<a href=" +:+ Py.dquote +:+ "x" +:+ Py.dquote +:+ " ?>")
                 false
     = Ok (Some (TElement "a" [("href", "x")] None None [])).
Proof.
  intros Hk Hm Ha. pose proof (ATTRFIND_progress _ _ _ _ _ Hm) as Hprog.
  split; [|split; [|split]].
  - destruct (endpos - k) as [|fuel] eqn:Hfuel; [lia|].
    cbn [attr_loop].
    rewrite (proj2 (Nat.ltb_lt k endpos)) by done. rewrite Hm.
    assert (Hskip : (String.eqb name "?" || String.eqb name Py.dquote) = true).
    { destruct Ha as [->| ->]; [done|].
      by rewrite String.eqb_refl, orb_true_r. }
    rewrite Hskip. apply attr_loop_fuel; lia.
  - done.
  - by apply attr_loop_names.
  - vm_compute. reflexivity.
Qed.

End AttrFacts.

Lemma artifact_attribute_discarded_witness :
  let html := "<a href=" +:+ Py.dquote +:+ "x" +:+ Py.dquote +:+ " ?>" in
  let self := set_rawdata (init false) html in
  Re.ATTRFIND html 11 = Some ("?", None, 13)
  /\ attr_loop Inert.replace_entities (14 - 11) self "a" 14 11
                [("href", Some "x")]
     = attr_loop Inert.replace_entities (14 - 13) self "a" 14 13
                 [("href", Some "x")]
  /\ 11 < 13
  /\ Forall (fun nv => ~ artifact (fst nv))
            (fst (attr_loop Inert.replace_entities (14 - 11) self "a" 14 11 []))
  /\ Inert.parse_html html false
     = Ok (Some (TElement "a" [("href", "x")] None None [])).
Proof.
  intros html self.
  assert (Hm : Re.ATTRFIND (rawdata self) 11 = Some ("?", None, 13))
    by (vm_compute; reflexivity).
  split; [exact Hm|].
  apply (artifact_attribute_discarded Inert.parse_declaration
           Inert.goahead_reference Inert.replace_entities
           self "a" 14 11 13 "?" None [("href", Some "x")]);
    [lia | exact Hm | left; reflexivity].
Defined.

(** ** The bounds of the unfolded loops are never reached *)

Lemma length_from (n : nat) (s : string) :
  String.length (Py.from n s) = String.length s - n.
Proof.
  revert s. induction n as [|n IH]; intros s; [by rewrite from_0, Nat.sub_0_r|].
  destruct s as [|c s]; [done|]. cbn [Py.from String.length]. by rewrite IH.
Qed.

Lemma locate_attr_progress (s : string) (n : nat) :
  Re.locate_attr s = Some n -> 0 < n /\ 0 < String.length s.
Proof.
  unfold Re.locate_attr.
  destruct (Py.span Py.is_space s) as [|w] eqn:Hw; [discriminate|].
  intros H. split.
  - destruct (Py.from (S w) s) as [|c r]; [discriminate|].
    destruct (Re.name_start c); [injection H as <-; lia|].
    destruct (Py.is_char "?" c); [injection H as <-; lia|].
    destruct (Py.has_prefix _ _); [injection H as <-; lia|discriminate].
  - destruct s; [discriminate|]. cbn [String.length]. lia.
Qed.

(** The rounds of [LOCATESTARTTAGEND] stop because a round fails to match,
    not because the bound (the length of the text) is used up. *)
Lemma locate_attrs_fuel (f1 f2 : nat) (s : string) :
  String.length s <= f1 -> String.length s <= f2 ->
  Re.locate_attrs f1 s = Re.locate_attrs f2 s.
Proof.
  revert f2 s. induction f1 as [|f1 IH]; intros f2 s H1 H2.
  - destruct f2 as [|f2]; [done|]. cbn [Re.locate_attrs].
    destruct (Re.locate_attr s) as [n|] eqn:Hn; [|done].
    apply locate_attr_progress in Hn. lia.
  - destruct f2 as [|f2]; cbn [Re.locate_attrs];
      destruct (Re.locate_attr s) as [n|] eqn:Hn; try done.
    + apply locate_attr_progress in Hn. lia.
    + apply locate_attr_progress in Hn. f_equal.
      apply IH; rewrite length_from; lia.
Qed.

Lemma keeps_same (self a : Parser) (r : res Parser) :
  rawdata a = rawdata self -> keeps a r -> keeps self r.
Proof. intros Ha. destruct r as [b|e]; simpl; congruence. Qed.

Lemma keeps_bind (self : Parser) (m : res Parser) (f : Parser -> res Parser) :
  keeps self m ->
  (forall a, rawdata a = rawdata self -> keeps self (f a)) ->
  keeps self (m ≫= f).
Proof. destruct m as [a|e]; simpl; auto. Qed.

Lemma close_tag_keeps (self : Parser) (tag_ : string) (force : bool) :
  keeps self (close_tag self tag_ force).
Proof.
  unfold close_tag. destruct (last (stack self)) as [top|]; [|done].
  destruct (negb force && _); [done|].
  simpl. by destruct (String.eqb (tag (deref self top)) "svg").
Qed.

Lemma force_close_keeps (n : nat) (self : Parser) (tag_ : string) :
  keeps self (force_close n self tag_).
Proof.
  revert self. induction n as [|n IH]; intros self; [done|].
  cbn [force_close]. apply keeps_bind; [apply close_tag_keeps|].
  intros a Ha. apply (keeps_same _ a); [done|apply IH].
Qed.

Lemma open_tag_keeps (self : Parser) (tag_ : string)
    (attrs : list (string * option string)) :
  keeps self (open_tag self tag_ attrs).
Proof.
  unfold open_tag. set (self0 := set_heap self _).
  apply (keeps_same _ self0); [done|].
  apply keeps_bind.
  - destruct (root self0); [|done].
    destruct (stack self0); [done|].
    apply keeps_bind; [apply force_close_keeps|].
    intros a Ha. by destruct (last (stack a)).
  - intros a Ha. simpl. by destruct (String.eqb tag_ "svg").
Qed.

Lemma handle_starttag_keeps (self : Parser) (tag_ : string)
    (attrs : list (string * option string)) :
  keeps self (handle_starttag self tag_ attrs).
Proof.
  unfold handle_starttag. apply keeps_bind; [apply open_tag_keeps|].
  intros a Ha. apply keeps_bind.
  - destruct (bool_decide _); [|done].
    apply (keeps_same _ a); [done|apply close_tag_keeps].
  - intros b Hb. simpl. by destruct (bool_decide _).
Qed.

Lemma handle_startendtag_keeps (self : Parser) (tag_ : string)
    (attrs : list (string * option string)) :
  keeps self (handle_startendtag self tag_ attrs).
Proof.
  unfold handle_startendtag. apply keeps_bind; [apply open_tag_keeps|].
  intros a Ha. apply (keeps_same _ a); [done|apply close_tag_keeps].
Qed.

Lemma handle_endtag_keeps (self : Parser) (tag_ : string) :
  keeps self (handle_endtag self tag_).
Proof.
  unfold handle_endtag.
  destruct (bool_decide _); [done|apply close_tag_keeps].
Qed.

Lemma handle_data_keeps (self : Parser) (data : string) :
  keeps self (handle_data self data).
Proof.
  unfold handle_data. destruct (last (stack self)) as [top|]; [|done].
  by destruct (last (children (deref self top))) as [[c|d t]|].
Qed.

Lemma handle_comment_keeps (self : Parser) (data : string) :
  keeps self (handle_comment self data).
Proof. unfold handle_comment. by destruct (last (stack self)). Qed.

Lemma advances_after (self : Parser) (i : nat) (m : res Parser)
    (k : option nat) :
  keeps self m ->
  match k with Some k => i < k | None => True end ->
  advances self i (a ← m; Ok (a, k)).
Proof. destruct m as [a|e]; simpl; auto. Qed.

Lemma commentclose_from_bounds (s : string) (at_ j m_end : nat) :
  Re.commentclose_from s at_ = Some (j, m_end) -> at_ <= j < m_end.
Proof.
  revert at_. induction s as [|c s IH]; intros at_; cbn [Re.commentclose_from].
  - cbn [Re.commentclose_here]. discriminate.
  - destruct (Re.commentclose_here (String c s)) as [n|] eqn:Hn.
    + intros [= <- <-]. unfold Re.commentclose_here in Hn.
      destruct c as [[] [] [] [] [] [] [] []]; try discriminate.
      destruct s as [|c' s]; [discriminate|].
      destruct c' as [[] [] [] [] [] [] [] []]; try discriminate.
      destruct (Py.from _ _) as [|c'' r]; [discriminate|].
      destruct c'' as [[] [] [] [] [] [] [] []]; try discriminate.
      injection Hn as <-. lia.
    + intros H. apply IH in H. lia.
Qed.

Section Budget.

Variable parse_declaration : string -> nat -> res (option nat).
Variable goahead_reference : Parser -> nat -> res (Parser * flow).
Variable replace_entities : string -> string.

(** What the loop needs from the inherited routines: an end position they
    return lies beyond the start, and they leave the buffer alone. *)
Hypothesis declaration_advances : forall self i,
  advances self i (k ← parse_declaration (rawdata self) i; Ok (self, k)).
Hypothesis reference_advances : forall self i,
  match goahead_reference self i with
  | Ok (self', Continue k) => rawdata self' = rawdata self /\ i < k
  | Ok (self', Break _) => rawdata self' = rawdata self
  | Raise e => e <> LoopBudget
  end.

#[local] Abbreviation parse_starttag' := (parse_starttag replace_entities).
#[local] Abbreviation goahead_tag' :=
  (goahead_tag parse_declaration replace_entities).
#[local] Abbreviation goahead_loop' :=
  (goahead_loop parse_declaration goahead_reference replace_entities).
#[local] Abbreviation feed' :=
  (feed parse_declaration goahead_reference replace_entities).

Lemma parse_starttag_advances (self : Parser) (i : nat) :
  advances self i (parse_starttag' self i).
Proof.
  unfold parse_starttag, check_for_whole_start_tag.
  destruct (Re.LOCATESTARTTAGEND (rawdata self) i) as [j|] eqn:Hj; [|done].
  assert (Hij : i < j).
  { unfold Re.LOCATESTARTTAGEND in Hj.
    destruct (Py.from i (rawdata self)) as [|c s]; [discriminate|].
    destruct c as [[] [] [] [] [] [] [] []]; try discriminate.
    destruct (Re.tagfind s); [|discriminate]. injection Hj as <-. lia. }
  set (next := Py.slice j (j + 1) (rawdata self)).
  assert (Hbody : forall endpos, i < endpos ->
    advances self i
      (match Re.tagfind (Py.from (i + 1) (rawdata self)) with
       | None => Raise AssertionError
       | Some t =>
           let k := i + 1 + t in
           let final_tag :=
             case_hack self (Py.slice (i + 1) k (rawdata self)) in
           let '(attrs, k) :=
             attr_loop replace_entities (endpos - k) self final_tag endpos k []
           in
           let end_ := Py.strip (Py.slice k endpos (rawdata self)) in
           if negb (String.eqb end_ ">" || String.eqb end_ "/>") then
             Raise (HTMLParseError
                      (JunkCharacters
                         (Py.upto 20 (Py.slice k endpos (rawdata self)))))
           else if String.eqb end_ "/>" then
             self ← handle_startendtag self final_tag attrs;
             Ok (self, Some endpos)
           else
             self ← handle_starttag self final_tag attrs;
             Ok (self, Some endpos)
       end)).
  { intros endpos Hend.
    destruct (Re.tagfind _) as [t|]; [|done]. cbv zeta.
    destruct (attr_loop _ _ _ _ _ _ _) as [attrs k].
    destruct (negb _); [done|].
    destruct (String.eqb _ "/>").
    - apply advances_after; [apply handle_startendtag_keeps|done].
    - apply advances_after; [apply handle_starttag_keeps|done]. }
  destruct (String.eqb next ">"); [apply Hbody; lia|].
  destruct (String.eqb next "/").
  { destruct (Py.startswith "/>" j (rawdata self)); [apply Hbody; lia|].
    by destruct (Py.startswith "/" j (rawdata self)). }
  destruct (String.eqb next EmptyString); [done|].
  by destruct (Py.is_in next _).
Qed.

Lemma parse_endtag_advances (self : Parser) (i : nat) :
  advances self i (parse_endtag self i).
Proof.
  unfold parse_endtag. destruct (negb _); [done|].
  unfold Re.endendtag.
  destruct (Py.find _ _) as [n|]; [|done]. cbn [fmap option_fmap option_map].
  destruct (Re.endtagfind (rawdata self) i) as [t|]; [|done].
  pose proof (handle_endtag_keeps self
                (if negb (should_retain_case self None) then Py.lower t else t))
    as Hk.
  destruct (handle_endtag self _) as [a|e]; [|done].
  simpl in *. split; [done|lia].
Qed.

Lemma parse_comment_advances (self : Parser) (i : nat) :
  advances self i (parse_comment self i).
Proof.
  unfold parse_comment, Re.commentclose.
  destruct (Re.commentclose_from _ _) as [[j m_end]|] eqn:Hm; [|done].
  apply commentclose_from_bounds in Hm.
  apply advances_after; [apply handle_comment_keeps|lia].
Qed.

Lemma parse_pi_advances (self : Parser) (i : nat) :
  advances self i (parse_pi self i).
Proof.
  unfold parse_pi, Re.endendtag.
  destruct (Py.find _ _) as [n|]; [|done]. simpl. split; [done|lia].
Qed.

Lemma goahead_tag_advances (self : Parser) (i n : nat) :
  advances self i (goahead_tag' self i n).
Proof.
  unfold goahead_tag.
  destruct (Re.starttagopen _ _); [apply parse_starttag_advances|].
  destruct (Py.startswith "</" _ _); [apply parse_endtag_advances|].
  destruct (Py.startswith "<!--" _ _); [apply parse_comment_advances|].
  destruct (Py.startswith "<?" _ _); [apply parse_pi_advances|].
  destruct (Py.startswith "<!" _ _); [apply declaration_advances|].
  destruct (Nat.ltb _ _); [|done].
  apply advances_after; [apply handle_data_keeps|lia].
Qed.

Lemma interesting_search_bounds (pattern : option string) (rawdata : string)
    (i j : nat) :
  Re.interesting_search pattern rawdata i = Some j -> i <= j.
Proof.
  destruct pattern as [t|]; simpl.
  - generalize (Py.from i rawdata). intros s. revert i.
    induction s as [|c s IH]; intros i; cbn [Re.interesting_cdata_from].
    + destruct (Re.interesting_cdata_here t EmptyString);
        [intros [= <-]; lia|discriminate].
    + destruct (Re.interesting_cdata_here t (String c s));
        [intros [= <-]; lia|].
      intros H. apply IH in H. lia.
  - destruct (Py.find _ _) as [n|]; [|discriminate].
    simpl. intros [= <-]. lia.
Qed.

(** With the inherited routines advancing, the loop of [goahead] always
    ends within its bound. *)
Lemma goahead_loop_budget (fuel : nat) (self : Parser) (i : nat) :
  String.length (rawdata self) - i < fuel ->
  goahead_loop' fuel self i <> Raise LoopBudget.
Proof.
  revert self i. induction fuel as [|fuel IH]; intros self i Hfuel; [lia|].
  cbn [goahead_loop].
  destruct (Nat.ltb_spec i (String.length (rawdata self))) as [Hlt|Hge];
    [|done].
  cbn [negb].
  set (j := default _ _).
  assert (Hij : i <= j).
  { unfold j. destruct (Re.interesting_search _ _ _) as [j'|] eqn:Hs.
    - apply interesting_search_bounds in Hs. done.
    - simpl. lia. }
  assert (Hdata : keeps self (if Nat.ltb i j
                              then handle_data self (Py.slice i j (rawdata self))
                              else Ok self)).
  { destruct (Nat.ltb i j); [apply handle_data_keeps|done]. }
  destruct (if Nat.ltb i j then _ else _) as [self1|e];
    [|simpl in *; congruence].
  simpl in Hdata. cbn [mbind res_bind].
  destruct (Nat.eqb j _); [done|].
  destruct (Py.startswith "<" j (rawdata self)).
  - pose proof (goahead_tag_advances self1 j (String.length (rawdata self)))
      as Hadv.
    destruct (goahead_tag' self1 j _) as [[self2 [k|]]|e];
      simpl in *; [|done|congruence].
    destruct Hadv as [Hraw Hk]. apply IH. rewrite Hraw, Hdata. lia.
  - destruct (Py.startswith "&" j (rawdata self)); [|done].
    pose proof (reference_advances self1 j) as Hadv.
    destruct (goahead_reference self1 j) as [[self2 [k|k]]|e];
      simpl in *; [|done|congruence].
    destruct Hadv as [Hraw Hk]. apply IH. rewrite Hraw, Hdata. lia.
Qed.

Lemma feed_budget (self : Parser) (data : string) :
  feed' self data <> Raise LoopBudget.
Proof. unfold feed, goahead. apply goahead_loop_budget. lia. Qed.

End Budget.

Lemma inert_feed_all_budget (self : Parser) (chunks : list string) :
  Inert.feed_all self chunks <> Raise LoopBudget.
Proof.
  revert self. induction chunks as [|c cs IH]; intros self; [done|].
  unfold Inert.feed_all. cbn [feed_all]. fold Inert.feed_all.
  pose proof (feed_budget Inert.parse_declaration Inert.goahead_reference
                Inert.replace_entities) as Hfeed.
  destruct (feed _ _ _ self c) as [self'|e] eqn:Hf.
  - apply IH.
  - simpl. intros [= ->]. eapply Hfeed; [| |exact Hf]; intros; simpl; done.
Qed.

(** ** A parse moves the parser by steps *)

Section Reach.

Variable parse_declaration : string -> nat -> res (option nat).
Variable goahead_reference : Parser -> nat -> res (Parser * flow).
Variable replace_entities : string -> string.

(** What is needed from the inherited reference branch: it acts on the
    parser through the handlers and its own fields only. *)
Hypothesis reference_steps : forall self i self' f,
  goahead_reference self i = Ok (self', f) -> rtc (step any_call) self self'.

#[local] Abbreviation parse_starttag' := (parse_starttag replace_entities).
#[local] Abbreviation goahead_tag' :=
  (goahead_tag parse_declaration replace_entities).
#[local] Abbreviation goahead_loop' :=
  (goahead_loop parse_declaration goahead_reference replace_entities).
#[local] Abbreviation feed' :=
  (feed parse_declaration goahead_reference replace_entities).
#[local] Abbreviation feed_all' :=
  (feed_all parse_declaration goahead_reference replace_entities).

Lemma call_steps (self self' : Parser) (c : call) :
  dispatch self c = Ok self' -> rtc (step any_call) self self'.
Proof. intros H. apply rtc_once. by apply (step_call _ _ c). Qed.

Lemma parse_starttag_steps (self self' : Parser) (i : nat) (k : option nat) :
  parse_starttag' self i = Ok (self', k) -> rtc (step any_call) self self'.
Proof.
  unfold parse_starttag. intros H. apply bind_Ok in H as ([endpos|] & _ & H);
    [|injection H as <- _; apply rtc_refl].
  destruct (Re.tagfind _) as [t|]; [|discriminate]. cbv zeta in H.
  destruct (attr_loop _ _ _ _ _ _ _) as [attrs k'].
  destruct (negb _); [discriminate|].
  destruct (String.eqb _ "/>"); inv_bind H; injection H as <- _.
  - exact (call_steps _ _ (Startendtag _ _) Hself0).
  - exact (call_steps _ _ (Starttag _ _) Hself0).
Qed.

Lemma parse_endtag_steps (self self' : Parser) (i : nat) (k : option nat) :
  parse_endtag self i = Ok (self', k) -> rtc (step any_call) self self'.
Proof.
  unfold parse_endtag. destruct (negb _); [discriminate|].
  destruct (Re.endendtag _ _) as [j|]; [|intros [= <- _]; apply rtc_refl].
  destruct (Re.endtagfind _ _) as [t|]; [|discriminate].
  intros H. inv_bind H. injection H as <- _.
  eapply rtc_r; [exact (call_steps _ _ (Endtag _) Hself0)|].
  apply step_interesting.
Qed.

Lemma parse_comment_steps (self self' : Parser) (i : nat) (k : option nat) :
  parse_comment self i = Ok (self', k) -> rtc (step any_call) self self'.
Proof.
  unfold parse_comment.
  destruct (Re.commentclose _ _) as [[j m_end]|];
    [|intros [= <- _]; apply rtc_refl].
  intros H. inv_bind H. injection H as <- _.
  exact (call_steps _ _ (Comment _) Hself0).
Qed.

Lemma goahead_tag_steps (self self' : Parser) (i n : nat) (k : option nat) :
  goahead_tag' self i n = Ok (self', k) -> rtc (step any_call) self self'.
Proof.
  unfold goahead_tag.
  destruct (Re.starttagopen _ _); [apply parse_starttag_steps|].
  destruct (Py.startswith "</" _ _); [apply parse_endtag_steps|].
  destruct (Py.startswith "<!--" _ _); [apply parse_comment_steps|].
  destruct (Py.startswith "<?" _ _).
  { unfold parse_pi. destruct (Re.endendtag _ _);
      intros [= <- _]; apply rtc_refl. }
  destruct (Py.startswith "<!" _ _).
  { intros H. apply bind_Ok in H as (k' & _ & H). injection H as <- _.
    apply rtc_refl. }
  destruct (Nat.ltb _ _); [|intros [= <- _]; apply rtc_refl].
  intros H. inv_bind H. injection H as <- _.
  exact (call_steps _ _ (Data _) Hself0).
Qed.

Lemma goahead_loop_steps (fuel : nat) (self self' : Parser) (i : nat) :
  goahead_loop' fuel self i = Ok self' -> rtc (step any_call) self self'.
Proof.
  revert self i. induction fuel as [|fuel IH]; intros self i; [discriminate|].
  cbn [goahead_loop].
  assert (Hleave : forall (a : Parser) (d : string),
             rtc (step any_call) self a ->
             Ok (set_rawdata a d) = Ok self' -> rtc (step any_call) self self').
  { intros a d Ha [= <-]. eapply rtc_r; [exact Ha|apply step_rawdata]. }
  destruct (negb _); [apply Hleave, rtc_refl|].
  set (j := default _ _).
  intros H. inv_bind H.
  assert (H0 : rtc (step any_call) self self0).
  { destruct (Nat.ltb i j); [exact (call_steps _ _ (Data _) Hself0)|].
    injection Hself0 as <-. apply rtc_refl. }
  destruct (Nat.eqb j _); [exact (Hleave _ _ H0 H)|].
  destruct (Py.startswith "<" j _).
  - apply bind_Ok in H as ([self1 k] & Htag & H).
    apply goahead_tag_steps in Htag.
    assert (H1 : rtc (step any_call) self self1) by (by etrans).
    destruct k as [k|]; [|exact (Hleave _ _ H1 H)].
    etrans; [exact H1|]. by apply (IH _ k).
  - destruct (Py.startswith "&" j _); [|discriminate].
    apply bind_Ok in H as ([self1 f] & Href & H).
    apply reference_steps in Href.
    assert (H1 : rtc (step any_call) self self1) by (by etrans).
    destruct f as [k|k]; [|exact (Hleave _ _ H1 H)].
    etrans; [exact H1|]. by apply (IH _ k).
Qed.

Lemma feed_all_steps (chunks : list string) (self self' : Parser) :
  feed_all' self chunks = Ok self' -> rtc (step any_call) self self'.
Proof.
  revert self. induction chunks as [|c cs IH]; intros self; cbn [feed_all].
  - intros [= <-]. apply rtc_refl.
  - intros H. inv_bind H. unfold feed, goahead in Hself0.
    apply goahead_loop_steps in Hself0.
    eapply rtc_l; [apply (step_rawdata _ self)|].
    etrans; [exact Hself0|]. by apply IH.
Qed.

(** Every state in which feeding leaves a fresh parser satisfies the
    invariant of the builder. *)
Lemma feed_all_wf (rc : bool) (chunks : list string) (self : Parser) :
  feed_all' (init rc) chunks = Ok self -> wf self.
Proof.
  intros H. apply feed_all_steps in H.
  by apply steps_Ok in H as [Hwf _]; [|apply wf_init].
Qed.

End Reach.

Lemma inert_feed_all_wf (rc : bool) (chunks : list string) (self : Parser) :
  Inert.feed_all (init rc) chunks = Ok self -> wf self.
Proof.
  apply feed_all_wf. intros a i a' f [= <- _]. apply rtc_refl.
Qed.

(** * Further properties of the builder and the scanner *)

(** ** What autoclose-on-open closes *)

Lemma not_candidate_None (self : Parser) (ltag : string) (id : nat) :
  AUTOCLOSE_ON_OPEN !! Py.lower (tag (deref self id)) = None ->
  ~ candidate self ltag id.
Proof. intros Hn (s & Hs & _). congruence. Qed.

Lemma not_candidate_out (self : Parser) (ltag : string) (id : nat)
    (s : gset string) :
  AUTOCLOSE_ON_OPEN !! Py.lower (tag (deref self id)) = Some s ->
  ltag ∉ s -> ~ candidate self ltag id.
Proof. intros Hs Hout (s' & Hs' & Hin). congruence. Qed.

Lemma autoclose_walk_spec (self : Parser) (ltag : string) (pos : nat) :
  match autoclose_walk self ltag pos with
  | None => forall p, p <= pos -> candidate self ltag (stack self !!! p)
  | Some p' =>
      p' <= pos
      /\ ~ candidate self ltag (stack self !!! p')
      /\ forall p, p' < p <= pos -> candidate self ltag (stack self !!! p)
  end.
Proof.
  induction pos as [|pos IH]; cbn [autoclose_walk].
  - destruct (AUTOCLOSE_ON_OPEN !! _) as [s|] eqn:Hs.
    + destruct (bool_decide_reflect (ltag ∈ s)) as [Hin|Hout]; cbn [negb].
      * intros p Hp. assert (p = 0) as -> by lia. by exists s.
      * split; [lia|]. split; [by eapply not_candidate_out|]. intros p Hp. lia.
    + split; [lia|]. split; [by apply not_candidate_None|]. intros p Hp. lia.
  - destruct (AUTOCLOSE_ON_OPEN !! _) as [s|] eqn:Hs.
    + destruct (bool_decide_reflect (ltag ∈ s)) as [Hin|Hout]; cbn [negb].
      * destruct (autoclose_walk self ltag pos) as [p'|].
        -- destruct IH as (Hle & Hnot & Habove). split; [lia|].
           split; [done|]. intros p Hp.
           destruct (decide (p = S pos)) as [->|]; [by exists s|].
           apply Habove. lia.
        -- intros p Hp.
           destruct (decide (p = S pos)) as [->|]; [by exists s|].
           apply IH. lia.
      * split; [lia|]. split; [by eapply not_candidate_out|]. intros p Hp. lia.
    + split; [lia|]. split; [by apply not_candidate_None|]. intros p Hp. lia.
Qed.

Lemma find_autoclose_on_open_top (self : Parser) (tag_ : string) :
  find_autoclose_on_open self tag_ <= length (stack self) - 1
  /\ forall i, i < find_autoclose_on_open self tag_ ->
       candidate self (Py.lower tag_)
         (stack self !!! (length (stack self) - 1 - i)).
Proof.
  unfold find_autoclose_on_open.
  destruct (length (stack self)) as [|pos] eqn:Hlen.
  - split; [lia|]. intros i Hi; lia.
  - pose proof (autoclose_walk_spec self (Py.lower tag_) pos) as Hw.
    destruct (autoclose_walk self (Py.lower tag_) pos) as [p'|].
    + destruct Hw as (Hle & Hnot & Habove).
      split; [lia|]. intros i Hi. apply Habove. lia.
    + split; [lia|]. intros i Hi; lia.
Qed.

(** X1. [find_autoclose_on_open] counts the unbroken run of candidates on
    top of the stack: every element it tells to close is a candidate, the
    element just below the run is not one, and the bottom of the stack is
    never counted.  When the whole stack is a run of candidates the count
    is 0. *)
Theorem find_autoclose_on_open_run (self : Parser) (tag_ : string) :
  let n := find_autoclose_on_open self tag_ in
  let len := length (stack self) in
  n <= len - 1
  /\ (forall i, i < n ->
        candidate self (Py.lower tag_) (stack self !!! (len - 1 - i)))
  /\ (~ candidate self (Py.lower tag_) (stack self !!! (len - 1 - n))
      \/ (n = 0 /\ forall id, id ∈ stack self ->
                     candidate self (Py.lower tag_) id)).
Proof.
  cbv zeta. unfold find_autoclose_on_open.
  destruct (length (stack self)) as [|pos] eqn:Hlen.
  - split; [lia|]. split; [intros i Hi; lia|]. right. split; [done|].
    intros id Hid. apply length_zero_iff_nil in Hlen. rewrite Hlen in Hid.
    by apply elem_of_nil in Hid.
  - pose proof (autoclose_walk_spec self (Py.lower tag_) pos) as Hw.
    destruct (autoclose_walk self (Py.lower tag_) pos) as [p'|].
    + destruct Hw as (Hle & Hnot & Habove).
      split; [lia|]. split.
      * intros i Hi. apply Habove. lia.
      * left. replace (S pos - 1 - (S pos - p' - 1)) with p' by lia. done.
    + split; [lia|]. split; [intros i Hi; lia|]. right. split; [done|].
      intros id Hid. apply list_elem_of_lookup_total_1 in Hid as (p & Hp & <-).
      apply Hw. lia.
Qed.

(** ** The errors of [open_tag] *)

Lemma length_removelast {A} (l : list A) :
  length (removelast l) = length l - 1.
Proof.
  induction l as [|a l IH]; [done|]. destruct l as [|b l]; [done|].
  cbn [removelast length] in *. rewrite IH. lia.
Qed.



(** ** Text events compose *)

Lemma res_bind_Ok {A B} (a : A) (f : A -> res B) : Ok a ≫= f = f a.
Proof. reflexivity. Qed.

Lemma str_append_assoc (a b c : string) : (a +:+ b) +:+ c = a +:+ (b +:+ c).
Proof.
  induction a as [|x a IH]; [done|].
  change (String x ((a +:+ b) +:+ c) = String x (a +:+ (b +:+ c))).
  by rewrite IH.
Qed.

Lemma or_empty_plus_twice (x : option string) (d1 d2 : string) :
  or_empty_plus (or_empty_plus x d1) d2 = or_empty_plus x (d1 +:+ d2).
Proof. unfold or_empty_plus. cbn. by rewrite str_append_assoc. Qed.

Lemma alter_alter {A} (f g : A -> A) (i : nat) (l : list A) :
  alter g i (alter f i l) = alter (fun x => g (f x)) i l.
Proof.
  revert i. induction l as [|a l IH]; intros i; [done|].
  destruct i as [|i]; [done|]. cbn. f_equal. apply IH.
Qed.

Lemma deref_allocated (self : Parser) (id : nat) (c : child) :
  last (children (deref self id)) = Some c -> id < length (heap self).
Proof.
  intros H. destruct (decide (id < length (heap self))) as [|Hge]; [done|].
  unfold deref in H. rewrite list_lookup_total_alt in H.
  rewrite (lookup_ge_None_2 (heap self) id) in H by lia. discriminate.
Qed.

Lemma deref_alter (self : Parser) (f : element -> element) (i j : nat) :
  deref (set_heap self (alter f i (heap self))) j
  = if decide (i = j /\ i < length (heap self)) then f (deref self i)
    else deref self j.
Proof. unfold deref. cbn [heap set_heap]. apply list_lookup_total_alter. Qed.

Lemma handle_data_twice (self : Parser) (d1 d2 : string) :
  (self1 ← handle_data self d1; handle_data self1 d2)
  = handle_data self (d1 +:+ d2).
Proof.
  unfold handle_data at 2 3.
  destruct (last (stack self)) as [top|] eqn:Htop;
    [|rewrite res_bind_Ok; unfold handle_data; by rewrite Htop].
  destruct (last (children (deref self top))) as [[c|d t]|] eqn:Hlast;
    rewrite res_bind_Ok; unfold handle_data.
  - cbn [stack add_tail set_heap]. rewrite Htop.
    unfold add_tail at 1. rewrite deref_alter.
    assert (Hsame : children
              (if decide (c = top /\ c < length (heap self))
               then Element (tag (deref self c)) (attrib (deref self c))
                      (text (deref self c))
                      (or_empty_plus (tail (deref self c)) d1)
                      (children (deref self c))
               else deref self top) = children (deref self top)).
    { destruct (decide _) as [[-> _]|]; done. }
    rewrite Hsame, Hlast. f_equal. unfold add_tail. cbn [heap set_heap].
    unfold set_heap. cbn. f_equal. rewrite alter_alter.
    apply list_alter_ext; [|done]. intros x _. cbn.
    by rewrite or_empty_plus_twice.
  - pose proof (deref_allocated _ _ _ Hlast) as Hlt.
    cbn [stack add_comment_tail set_heap]. rewrite Htop.
    unfold add_comment_tail at 1. rewrite deref_alter.
    destruct (decide _) as [_|Hno]; [|exfalso; apply Hno; done].
    cbn [children]. rewrite Hlast, last_snoc. f_equal.
    unfold add_comment_tail. cbn [heap set_heap]. unfold set_heap. cbn.
    f_equal. rewrite alter_alter. apply list_alter_ext; [|done].
    intros x Hx. apply list_lookup_total_correct in Hx.
    fold (deref self top) in Hx. subst x. cbn. rewrite Hlast, last_snoc.
    rewrite removelast_last. by rewrite or_empty_plus_twice.
  - cbn [stack add_text set_heap]. rewrite Htop.
    unfold add_text at 1. rewrite deref_alter.
    assert (Hsame : children
              (if decide (top = top /\ top < length (heap self))
               then Element (tag (deref self top)) (attrib (deref self top))
                      (or_empty_plus (text (deref self top)) d1)
                      (tail (deref self top)) (children (deref self top))
               else deref self top) = children (deref self top)).
    { destruct (decide _); done. }
    rewrite Hsame, Hlast. f_equal. unfold add_text. cbn [heap set_heap].
    unfold set_heap. cbn. f_equal. rewrite alter_alter.
    apply list_alter_ext; [|done]. intros x _. cbn.
    by rewrite or_empty_plus_twice.
Qed.

(** X3. Two text events in a row have the effect of one event carrying the
    concatenated text: the text is appended in the same place (the tail of
    the last child, or the leading text of the element), or dropped both
    times when the stack is empty. *)
Theorem handle_data_append (self : Parser) (d1 d2 : string) :
  (self1 ← handle_data self d1; handle_data self1 d2)
  = handle_data self (d1 +:+ d2).
Proof. exact (handle_data_twice self d1 d2). Qed.



(** ** The foreign-content flag and the stack *)

Lemma elem_of_removelast_ne {A} (l : list A) (x top : A) :
  x ∈ l -> last l = Some top -> x <> top -> x ∈ removelast l.
Proof.
  intros Hx Hlast Hne. rewrite (last_removelast l top Hlast) in Hx.
  apply elem_of_app in Hx as [Hx|Hx]; [done|].
  apply list_elem_of_singleton in Hx. done.
Qed.

Lemma close_tag_svg_backed (self self' : Parser) (tag_ : string)
    (force : bool) :
  svg_backed self -> close_tag self tag_ force = Ok self' -> svg_backed self'.
Proof.
  intros Hinv H. apply close_tag_Ok in H as (top & Htop & _ & ->).
  destruct (String.eqb_spec (tag (deref self top)) "svg") as [Hsvg|Hsvg].
  - intros Hflag. discriminate.
  - intros Hflag. destruct (Hinv Hflag) as (id & Hid & Htag).
    exists id. split; [|done]. cbn [stack set_stack].
    apply (elem_of_removelast_ne _ _ top); [done..|].
    intros ->. apply Hsvg. by apply tag_of_tags.
Qed.

Lemma force_close_svg_backed (n : nat) (self self' : Parser) (tag_ : string) :
  svg_backed self -> force_close n self tag_ = Ok self' -> svg_backed self'.
Proof.
  revert self. induction n as [|n IH]; intros self Hinv; cbn [force_close].
  - by intros [= <-].
  - intros H. apply bind_Ok in H as (s1 & Hs1 & H). eapply IH; [|exact H].
    by eapply close_tag_svg_backed.
Qed.

Lemma force_close_flags (n : nat) (self self' : Parser) (tag_ : string) :
  force_close n self tag_ = Ok self' ->
  retain_case self' = retain_case self
  /\ interesting self' = interesting self
  /\ rawdata self' = rawdata self.
Proof.
  revert self. induction n as [|n IH]; intros self H.
  - by injection H as <-.
  - cbn [force_close] in H. apply bind_Ok in H as (s1 & Hs1 & H).
    apply close_tag_Ok in Hs1 as (top & _ & _ & ->).
    apply IH in H as (-> & -> & ->).
    by destruct (String.eqb (tag (deref self top)) "svg").
Qed.

(** The parts of a successful [open_tag]: the element is allocated, the
    autoclose check pops some elements (none when there is no root yet),
    the element is pushed and the flag is set for svg. *)
Lemma open_tag_parts (self self1 : Parser) (tag_ : string)
    (attrs : list (string * option string)) :
  open_tag self tag_ attrs = Ok self1 ->
  let self0 :=
    set_heap self
      (heap self ++ [Element tag_ (attrib_update [] attrs) None None []]) in
  exists n self2,
    force_close n self0 tag_ = Ok self2
    /\ (n = 0 \/ n = find_autoclose_on_open self0 tag_)
    /\ stack self1 = stack self2 ++ [length (heap self)]
    /\ tags self1 = tags self ++ [tag_]
    /\ in_svg self1 = (String.eqb tag_ "svg" || in_svg self2)
    /\ retain_case self1 = retain_case self
    /\ interesting self1 = interesting self
    /\ rawdata self1 = rawdata self.
Proof.
  unfold open_tag. cbv zeta. set (self0 := set_heap self _).
  intros H. apply bind_Ok in H as (s2 & Hs2 & H).
  assert (Hout : stack self1 = stack s2 ++ [length (heap self)]
                 /\ heap self1 = heap s2
                 /\ in_svg self1 = (String.eqb tag_ "svg" || in_svg s2)
                 /\ retain_case self1 = retain_case s2
                 /\ interesting self1 = interesting s2
                 /\ rawdata self1 = rawdata s2).
  { injection H as <-. destruct (String.eqb tag_ "svg"); done. }
  destruct Hout as (Hs & Hh & Hf & Hrc & Hi & Hr). clear H.
  change (root self0) with (root self) in Hs2.
  destruct (root self) as [r|].
  - destruct (stack self0) as [|id0 st0] eqn:Hst0; [discriminate|].
    cbv iota in Hs2.
    apply bind_Ok in Hs2 as (s3 & Hs3 & Hs2).
    unfold check_autoclose_on_open in Hs3.
    destruct (last (stack s3)) as [parent|]; [|discriminate].
    injection Hs2 as <-.
    pose proof (force_close_frame _ _ _ _ Hs3) as (Hh3 & _ & _).
    pose proof (force_close_flags _ _ _ _ Hs3) as (Hf1 & Hf2 & Hf3).
    exists (find_autoclose_on_open self0 tag_), s3.
    split; [done|]. split; [by right|]. split; [done|].
    split.
    { unfold tags. rewrite Hh. cbn [heap append_child set_heap].
      rewrite tags_alter by done. rewrite Hh3. cbn [heap self0 set_heap].
      by rewrite fmap_app. }
    split; [done|].
    split; [by rewrite Hrc|]. split; [by rewrite Hi|]. by rewrite Hr.
  - injection Hs2 as <-. exists 0, self0.
    split; [done|]. split; [by left|]. split; [done|].
    split; [unfold tags; rewrite Hh; cbn; by rewrite fmap_app|]. done.
Qed.

Lemma open_tag_svg_backed (self self1 : Parser) (tag_ : string)
    (attrs : list (string * option string)) :
  svg_backed self -> open_tag self tag_ attrs = Ok self1 -> svg_backed self1.
Proof.
  intros Hinv H.
  apply open_tag_parts in H
    as (n & self2 & Hf & _ & Hs & Htg & Hflag & _).
  assert (H0 : svg_backed
                 (set_heap self
                    (heap self
                     ++ [Element tag_ (attrib_update [] attrs) None None []]))).
  { intros Hsvg. destruct (Hinv Hsvg) as (id & Hid & Htag).
    exists id. split; [done|]. unfold tags. cbn [heap set_heap].
    rewrite fmap_app. by apply lookup_app_l_Some. }
  pose proof (force_close_svg_backed _ _ _ _ H0 Hf) as H2.
  pose proof (force_close_frame _ _ _ _ Hf) as (Hh2 & _ & _).
  assert (Htg2 : tags self2 = tags self ++ [tag_]).
  { unfold tags. rewrite Hh2. cbn [heap set_heap]. by rewrite fmap_app. }
  intros Hsvg. rewrite Hflag in Hsvg. rewrite Hs, Htg.
  destruct (String.eqb_spec tag_ "svg") as [->|Hne].
  - exists (length (heap self)). split.
    + apply elem_of_app. right. by apply list_elem_of_singleton.
    + apply list_lookup_middle. unfold tags. by rewrite length_fmap.
  - cbn [orb] in Hsvg. destruct (H2 Hsvg) as (id & Hid & Htag).
    exists id. split; [apply elem_of_app; by left|]. by rewrite <- Htg2.
Qed.

Lemma dispatch_svg_backed (self self' : Parser) (c : call) :
  wf self -> svg_backed self -> dispatch self c = Ok self' -> svg_backed self'.
Proof.
  intros Hwf Hinv H. destruct c as [t a|t a|t|d|d]; cbn [dispatch] in H.
  - unfold handle_starttag in H. apply bind_Ok in H as (s1 & Hs1 & H).
    apply bind_Ok in H as (s2 & Hs2 & H).
    apply open_tag_svg_backed in Hs1; [|done].
    assert (H1 : svg_backed s2).
    { destruct (bool_decide (Py.lower t ∈ VOID_TAGS));
        [by eapply close_tag_svg_backed|by injection Hs2 as <-]. }
    injection H as <-.
    destruct (bool_decide (Py.lower t ∈ CDATA_CONTENT_ELEMENTS_V2));
      exact H1.
  - unfold handle_startendtag in H. apply bind_Ok in H as (s1 & Hs1 & H).
    apply open_tag_svg_backed in Hs1; [|done].
    by eapply close_tag_svg_backed.
  - unfold handle_endtag in H.
    destruct (bool_decide _); [by injection H as <-|].
    by eapply close_tag_svg_backed.
  - pose proof (handle_data_Ok _ _ _ Hwf H) as [_ Htg].
    unfold handle_data in H. intros Hsvg. unfold svg_backed in Hinv.
    rewrite <- Htg in Hinv.
    destruct (last (stack self)) as [top|]; [|by injection H as <-; auto].
    destruct (last (children (deref self top))) as [[c|d' ct]|];
      injection H as <-; exact (Hinv Hsvg).
  - pose proof (handle_comment_Ok _ _ _ Hwf H) as [_ Htg].
    unfold handle_comment in H. intros Hsvg. unfold svg_backed in Hinv.
    rewrite <- Htg in Hinv.
    destruct (last (stack self)) as [top|]; [|discriminate].
    injection H as <-. exact (Hinv Hsvg).
Qed.

Lemma steps_svg_backed (self self' : Parser) :
  rtc (step any_call) self self' ->
  wf self -> svg_backed self -> wf self' /\ svg_backed self'.
Proof.
  intros H. induction H as [self|self self1 self' H1 _ IH]; [done|].
  intros Hwf Hinv. apply IH.
  - by apply (step_Ok any_call self self1).
  - destruct H1 as [self c self1 _ H|self d|self p'];
      [by eapply dispatch_svg_backed|done|done].
Qed.

(** X5. The foreign-content flag is never set outside an open svg element:
    in every state a parse can reach from a fresh parser, [in_svg] being
    true means that an element whose tag is exactly svg is on the stack. *)
Theorem in_svg_means_svg_open (rc : bool) (self : Parser) :
  rtc (step any_call) (init rc) self ->
  in_svg self = true ->
  exists id, id ∈ stack self /\ tag (deref self id) = "svg".
Proof.
  intros Hreach Hsvg.
  apply steps_svg_backed in Hreach as [_ Hinv];
    [|apply wf_init|intros H; discriminate].
  destruct (Hinv Hsvg) as (id & Hid & Htag).
  exists id. split; [done|]. by apply tag_of_tags.
Qed.

Lemma in_svg_means_svg_open_witness :
  let self := mkParser [Element "svg" [] None None [CElem 1];
                        Element "G" [] None None []]
                       [0; 1] (Some 0) false true EmptyString None in
  exists id, id ∈ stack self /\ tag (deref self id) = "svg".
Proof.
  intros self. apply (in_svg_means_svg_open false self); [|reflexivity].
  apply (run_steps any_call [Starttag "svg" []; Starttag "G" []]);
    reflexivity.
Defined.

(** ** A start tag and its end tag *)

Lemma lower_char_idem (c : ascii) :
  Py.lower_char (Py.lower_char c) = Py.lower_char c.
Proof. destruct c as [[] [] [] [] [] [] [] []]; vm_compute; reflexivity. Qed.

Lemma lower_idem (s : string) : Py.lower (Py.lower s) = Py.lower s.
Proof.
  induction s as [|c s IH]; [done|].
  cbn [Py.lower]. by rewrite lower_char_idem, IH.
Qed.

Lemma lower_case_hack (self : Parser) (raw : string) :
  Py.lower (case_hack self raw) = Py.lower raw.
Proof.
  unfold case_hack. destruct (should_retain_case self None); [done|].
  apply lower_idem.
Qed.

Lemma candidate_not_svg (self : Parser) (ltag : string) (id : nat) :
  candidate self ltag id -> tag (deref self id) <> "svg".
Proof.
  intros (s & Hs & _) Heq. rewrite Heq in Hs. vm_compute in Hs. discriminate.
Qed.

Lemma last_lookup_total (l : list nat) (x : nat) :
  last l = Some x -> l !!! (length l - 1) = x.
Proof.
  intros H. apply list_lookup_total_correct.
  rewrite last_lookup in H. by replace (length l - 1) with (pred (length l)) by lia.
Qed.

Lemma lookup_total_removelast (l : list nat) (j : nat) :
  j < length l - 1 -> removelast l !!! j = l !!! j.
Proof.
  intros Hj. destruct (last l) as [x|] eqn:Hl.
  - pose proof (last_removelast l x Hl) as Heq.
    symmetry. rewrite Heq at 1.
    apply lookup_total_app_l. rewrite length_removelast. lia.
  - apply last_None in Hl. subst l. simpl in Hj. lia.
Qed.

Lemma force_close_Ok_length (n : nat) (self self' : Parser) (tag_ : string) :
  force_close n self tag_ = Ok self' -> n <= length (stack self).
Proof.
  revert self. induction n as [|n IH]; intros self H; [lia|].
  cbn [force_close] in H. apply bind_Ok in H as (s1 & Hs1 & H).
  pose proof (close_tag_frame _ _ _ _ Hs1) as (_ & Hs & _).
  apply close_tag_Ok in Hs1 as (top & Htop & _). apply IH in H.
  rewrite Hs, length_removelast in H.
  destruct (stack self) as [|a l]; [discriminate Htop|].
  cbn [length] in *. lia.
Qed.

(** Popping elements none of which is an svg leaves the flag alone. *)
Lemma force_close_in_svg (n : nat) (self self' : Parser) (tag_ : string) :
  force_close n self tag_ = Ok self' ->
  (forall i, i < n ->
     tag (deref self (stack self !!! (length (stack self) - 1 - i))) <> "svg") ->
  in_svg self' = in_svg self.
Proof.
  revert self. induction n as [|n IH]; intros self H Hc.
  - by injection H as <-.
  - cbn [force_close] in H. apply bind_Ok in H as (s1 & Hs1 & H).
    pose proof (force_close_Ok_length _ _ _ _ H) as Hlen.
    apply close_tag_Ok in Hs1 as (top & Htop & _ & ->).
    pose proof (Hc 0 ltac:(lia)) as H0.
    rewrite Nat.sub_0_r, (last_lookup_total _ _ Htop) in H0.
    destruct (String.eqb_spec (tag (deref self top)) "svg") as [|_]; [done|].
    apply IH in H; [exact H|].
    cbn [stack set_stack] in *. rewrite length_removelast in *.
    intros i Hi. rewrite lookup_total_removelast by lia.
    replace (length (stack self) - 1 - 1 - i)
      with (length (stack self) - 1 - S i) by lia.
    apply (Hc (S i)). lia.
Qed.

(** Opening a tag never clears the flag: what autoclose-on-open pops are
    candidates, and no svg element is one. *)
Lemma open_tag_in_svg (self self1 : Parser) (tag_ : string)
    (attrs : list (string * option string)) :
  open_tag self tag_ attrs = Ok self1 ->
  in_svg self1 = (String.eqb tag_ "svg" || in_svg self).
Proof.
  intros H.
  apply open_tag_parts in H as (n & self2 & Hf & Hn & _ & _ & -> & _).
  f_equal. apply force_close_in_svg in Hf; [exact Hf|].
  intros i Hi. destruct Hn as [->| ->]; [lia|].
  eapply candidate_not_svg.
  by apply find_autoclose_on_open_top.
Qed.

Lemma open_tag_top (self self1 : Parser) (tag_ : string)
    (attrs : list (string * option string)) :
  open_tag self tag_ attrs = Ok self1 ->
  last (stack self1) = Some (length (heap self))
  /\ tag (deref self1 (length (heap self))) = tag_.
Proof.
  intros H. apply open_tag_parts in H as (n & self2 & _ & _ & Hs & Htg & _).
  split; [rewrite Hs; apply last_snoc|].
  apply tag_of_tags. rewrite Htg. apply list_lookup_middle.
  unfold tags. by rewrite length_fmap.
Qed.

Lemma handle_starttag_non_void (self s1 : Parser) (tag_ : string)
    (attrs : list (string * option string)) :
  ~ void tag_ ->
  handle_starttag self tag_ attrs = Ok s1 ->
  exists s0,
    open_tag self tag_ attrs = Ok s0
    /\ heap s1 = heap s0 /\ stack s1 = stack s0
    /\ in_svg s1 = in_svg s0 /\ retain_case s1 = retain_case s0.
Proof.
  intros Hv H. unfold handle_starttag in H.
  apply bind_Ok in H as (s0 & Hs0 & H). apply bind_Ok in H as (s0' & Hs0' & H).
  rewrite (bool_decide_eq_false_2 _ Hv) in Hs0'. injection Hs0' as <-.
  exists s0. split; [done|]. injection H as <-.
  by destruct (bool_decide (Py.lower tag_ ∈ CDATA_CONTENT_ELEMENTS_V2)).
Qed.

(** X6. A start tag followed by its own end tag, each name folded by the
    scanner's case rule at the time it is read: for a non-void element the
    two folded names agree, the end tag is accepted, and it pops exactly
    the element the start tag pushed, leaving the nodes as they were.  The
    hypothesis on svg excludes the one case where the rule changes between
    the two tags (an svg written with an uppercase letter, outside
    case-retaining mode). *)
Theorem start_end_round_trip (self s1 : Parser) (raw : string)
    (attrs : list (string * option string)) :
  ~ void raw ->
  (Py.lower raw = "svg" ->
   raw = "svg" \/ should_retain_case self None = true) ->
  handle_starttag self (case_hack self raw) attrs = Ok s1 ->
  case_hack s1 raw = case_hack self raw
  /\ exists s2,
       handle_endtag s1 (case_hack s1 raw) = Ok s2
       /\ stack s1 = stack s2 ++ [length (heap self)]
       /\ heap s2 = heap s1
       /\ (case_hack self raw <> "svg" -> in_svg s2 = in_svg self).
Proof.
  intros Hv Hsvg H.
  assert (Hv' : ~ void (case_hack self raw))
    by (unfold void; by rewrite lower_case_hack).
  apply (handle_starttag_non_void _ _ _ _ Hv') in H
    as (s0 & Hopen & Hh & Hs & Hf & Hrc).
  pose proof (open_tag_in_svg _ _ _ _ Hopen) as Hflag.
  pose proof (open_tag_top _ _ _ _ Hopen) as [Hlast Htag].
  pose proof (open_tag_parts _ _ _ _ Hopen)
    as (_ & _ & _ & _ & _ & _ & _ & Hrc0 & _).
  assert (Hfold : case_hack s1 raw = case_hack self raw).
  { unfold case_hack at 1. unfold should_retain_case.
    rewrite Hrc, Hrc0, Hf, Hflag. unfold case_hack, should_retain_case.
    rewrite !orb_false_r.
    destruct (retain_case self) eqn:Er; [done|].
    destruct (in_svg self) eqn:Ef; [by rewrite orb_true_r|].
    cbn [orb]. rewrite orb_false_r.
    destruct (String.eqb_spec (Py.lower raw) "svg") as [Hl|]; [|done].
    destruct (Hsvg Hl) as [->|Hr]; [done|].
    unfold should_retain_case in Hr. rewrite Er, Ef in Hr. discriminate. }
  split; [exact Hfold|]. rewrite Hfold.
  unfold handle_endtag. rewrite (bool_decide_eq_false_2 _ Hv').
  unfold close_tag. rewrite Hs, Hlast.
  assert (Hd : deref s1 (length (heap self)) = deref s0 (length (heap self)))
    by (unfold deref; by rewrite Hh).
  rewrite Hd, Htag, String.eqb_refl. cbn [negb andb].
  eexists. split; [reflexivity|].
  assert (Hst : stack s0 = removelast (stack s0) ++ [length (heap self)])
    by (by apply last_removelast).
  split; [|split].
  - destruct (String.eqb _ "svg"); cbn [stack set_stack set_in_svg];
      exact Hst.
  - by destruct (String.eqb _ "svg").
  - intros Hne. apply String.eqb_neq in Hne. rewrite Hne in *.
    cbn [in_svg set_stack]. by rewrite Hf, Hflag.
Qed.

Lemma start_end_round_trip_witness :
  let s1 := mkParser [Element "div" [] None None []] [0] (Some 0)
                     false false EmptyString None in
  case_hack s1 "DIV" = case_hack (init false) "DIV"
  /\ exists s2,
       handle_endtag s1 (case_hack s1 "DIV") = Ok s2
       /\ stack s1 = stack s2 ++ [length (heap (init false))]
       /\ heap s2 = heap s1
       /\ (case_hack (init false) "DIV" <> "svg"
           -> in_svg s2 = in_svg (init false)).
Proof.
  intros s1. apply (start_end_round_trip (init false) s1 "DIV" []).
  - unfold void. apply (bool_decide_unpack _). vm_compute. exact I.
  - discriminate.
  - vm_compute. reflexivity.
Defined.

(** X7. Outside case-retaining mode an svg element whose name is written
    with an uppercase letter cannot be closed by its own end tag: the start
    tag is lowercased and sets the flag, the flag then keeps the case of
    the end tag's name, and the comparison with the element's tag fails
    with the parse error for an unexpected close tag. *)
Theorem mixed_case_svg_end_tag (self s1 : Parser) (raw : string)
    (attrs : list (string * option string)) :
  retain_case self = false -> in_svg self = false ->
  Py.lower raw = "svg" -> raw <> "svg" ->
  handle_starttag self (case_hack self raw) attrs = Ok s1 ->
  handle_endtag s1 (case_hack s1 raw)
  = Raise (HTMLParseError (UnexpectedCloseTag raw "svg")).
Proof.
  intros Hrc Hf Hl Hne H.
  assert (Hfold : case_hack self raw = "svg").
  { unfold case_hack, should_retain_case. by rewrite Hrc, Hf, Hl. }
  rewrite Hfold in H.
  assert (Hv : ~ void "svg").
  { unfold void. apply (bool_decide_unpack _). vm_compute. exact I. }
  apply (handle_starttag_non_void _ _ _ _ Hv) in H
    as (s0 & Hopen & Hh & Hs & Hf1 & Hrc1).
  pose proof (open_tag_in_svg _ _ _ _ Hopen) as Hflag.
  pose proof (open_tag_top _ _ _ _ Hopen) as [Hlast Htag].
  assert (Hfold1 : case_hack s1 raw = raw).
  { unfold case_hack, should_retain_case. rewrite Hf1, Hflag.
    cbn [String.eqb Ascii.eqb]. by rewrite orb_true_r. }
  rewrite Hfold1. unfold handle_endtag.
  assert (Hv' : ~ void raw) by (unfold void; by rewrite Hl).
  rewrite (bool_decide_eq_false_2 _ Hv').
  unfold close_tag. rewrite Hs, Hlast.
  assert (Hd : deref s1 (length (heap self)) = deref s0 (length (heap self)))
    by (unfold deref; by rewrite Hh).
  rewrite Hd, Htag.
  assert (Hneq : String.eqb "svg" raw = false)
    by (apply String.eqb_neq; congruence).
  by rewrite Hneq.
Qed.

Lemma mixed_case_svg_end_tag_witness :
  Inert.parse_html "<SVG></SVG>" false
  = Raise (HTMLParseError (UnexpectedCloseTag "SVG" "svg"))
  /\ exists s1,
       handle_starttag (init false) (case_hack (init false) "SVG") [] = Ok s1
       /\ handle_endtag s1 (case_hack s1 "SVG")
          = Raise (HTMLParseError (UnexpectedCloseTag "SVG" "svg")).
Proof.
  split; [vm_compute; reflexivity|].
  eexists. split; [vm_compute; reflexivity|].
  apply (mixed_case_svg_end_tag (init false) _ "SVG" []);
    [reflexivity|reflexivity|reflexivity|discriminate|vm_compute; reflexivity].
Defined.

(** ** Text chunks through [feed] *)

Lemma interesting_cdata_none (tag_ s : string) (at_ : nat) :
  Py.contains "<" s = false -> Re.interesting_cdata_from tag_ s at_ = None.
Proof.
  revert at_. induction s as [|c s IH]; intros at_ H; [done|].
  cbn [Py.contains] in H. apply orb_false_iff in H as [Hc Hs].
  cbn [Re.interesting_cdata_from].
  assert (Hh : Re.interesting_cdata_here tag_ (String c s) = false).
  { destruct c as [[] [] [] [] [] [] [] []];
      first [reflexivity | discriminate Hc]. }
  rewrite Hh. by apply IH.
Qed.

Lemma upto_length (s : string) : Py.upto (String.length s) s = s.
Proof. induction s as [|c s IH]; [done|]. cbn. by rewrite IH. Qed.

Lemma str_append_nil_r (s : string) : s +:+ EmptyString = s.
Proof.
  induction s as [|c s IH]; [done|].
  change (String c (s +:+ EmptyString) = String c s). by rewrite IH.
Qed.

Lemma contains_app (c : ascii) (a b : string) :
  Py.contains c (a +:+ b) = Py.contains c a || Py.contains c b.
Proof.
  induction a as [|x a IH]; [done|].
  change (Py.contains c (String x (a +:+ b))
          = Py.contains c (String x a) || Py.contains c b).
  cbn [Py.contains]. by rewrite IH, orb_assoc.
Qed.

Lemma handle_data_rawdata (self : Parser) (r r' d : string) :
  (s ← handle_data (set_rawdata self r) d; Ok (set_rawdata s r'))
  = handle_data (set_rawdata self r') d.
Proof.
  unfold handle_data. cbn [stack set_rawdata].
  change (deref (set_rawdata self r)) with (deref self).
  change (deref (set_rawdata self r')) with (deref self).
  destruct (last (stack self)) as [top|]; [|done].
  by destruct (last (children (deref self top))) as [[c|d' t]|].
Qed.

Lemma set_rawdata_same (self : Parser) : set_rawdata self (rawdata self) = self.
Proof. by destruct self. Qed.

Lemma handle_data_returns (self : Parser) (d : string) :
  exists s,
    handle_data self d = Ok s
    /\ rawdata s = rawdata self /\ interesting s = interesting self.
Proof.
  unfold handle_data. destruct (last (stack self)) as [top|]; [|by eexists].
  destruct (last (children (deref self top))) as [[c|d' t]|]; by eexists.
Qed.

Lemma res_bind_ret {A} (m : res A) : (s ← m; Ok s) = m.
Proof. by destruct m. Qed.

Section TextChunks.

Variable parse_declaration : string -> nat -> res (option nat).
Variable goahead_reference : Parser -> nat -> res (Parser * flow).
Variable replace_entities : string -> string.

#[local] Abbreviation feed_t :=
  (feed parse_declaration goahead_reference replace_entities).
#[local] Abbreviation feed_all_t :=
  (feed_all parse_declaration goahead_reference replace_entities).

(** What the scanner takes for text: no [<], and outside raw-text mode no
    [&] either. *)
Lemma feed_text_chunk (self : Parser) (data : string) :
  rawdata self = EmptyString ->
  Py.contains "<" data = false ->
  (interesting self = None -> Py.contains "&" data = false) ->
  feed_t self data
  = match data with
    | EmptyString => Ok self
    | _ => handle_data self data
    end.
Proof.
  intros Hraw Hlt Hamp. unfold feed, goahead. rewrite Hraw.
  change (EmptyString +:+ data) with data.
  change (rawdata (set_rawdata self data)) with data.
  destruct data as [|c r] eqn:Hdata.
  - simpl. destruct self; simpl in *. by subst.
  - rewrite <- Hdata in *. cbn [goahead_loop].
    change (rawdata (set_rawdata self data)) with data.
    change (interesting (set_rawdata self data)) with (interesting self).
    assert (Hn : Nat.ltb 0 (String.length data) = true)
      by (rewrite Hdata; done).
    rewrite Hn. cbn [negb].
    assert (Hj : Re.interesting_search (interesting self) data 0 = None).
    { unfold Re.interesting_search. rewrite from_0.
      destruct (interesting self) as [t|].
      - by apply interesting_cdata_none.
      - by rewrite find_interesting_none by auto. }
    rewrite Hj. cbn [default]. rewrite Hn.
    unfold Py.slice. rewrite from_0, Nat.sub_0_r, upto_length.
    rewrite Nat.eqb_refl, from_length.
    rewrite handle_data_rawdata. rewrite <- Hraw at 1.
    by rewrite set_rawdata_same.
Qed.

(** X8. Text reaches the builder unbuffered and independent of chunking.
    With an empty buffer, a chunk that holds no [<] (and, outside raw-text
    mode, no [&]) is handed whole to [handle_data] by the [feed] call that
    receives it, an empty chunk does nothing, and feeding two such chunks
    one after the other is the same as feeding their concatenation. *)
Theorem feed_text_chunks (self : Parser) (d1 d2 : string) :
  rawdata self = EmptyString ->
  Py.contains "<" d1 = false -> Py.contains "<" d2 = false ->
  (interesting self = None ->
   Py.contains "&" d1 = false /\ Py.contains "&" d2 = false) ->
  feed_t self d1
  = match d1 with
    | EmptyString => Ok self
    | _ => handle_data self d1
    end
  /\ feed_all_t self [d1; d2] = feed_t self (d1 +:+ d2).
Proof.
  intros Hraw Hlt1 Hlt2 Hamp.
  assert (H1 : feed_t self d1
               = match d1 with
                 | EmptyString => Ok self
                 | _ => handle_data self d1
                 end).
  { apply feed_text_chunk; [done..|]. intros Hi. by apply Hamp. }
  split; [exact H1|].
  assert (H12 : feed_t self (d1 +:+ d2)
                = match d1 +:+ d2 with
                  | EmptyString => Ok self
                  | _ => handle_data self (d1 +:+ d2)
                  end).
  { apply feed_text_chunk; [done|..].
    - by rewrite contains_app, Hlt1, Hlt2.
    - intros Hi. destruct (Hamp Hi) as [Ha1 Ha2].
      by rewrite contains_app, Ha1, Ha2. }
  cbn [feed_all]. rewrite H1, H12.
  destruct d1 as [|c1 r1].
  - rewrite res_bind_Ok. change (EmptyString +:+ d2) with d2.
    rewrite res_bind_ret. apply feed_text_chunk; [done..|].
    intros Hi. by apply Hamp.
  - change (String c1 r1 +:+ d2) with (String c1 (r1 +:+ d2)). cbv iota.
    change (String c1 (r1 +:+ d2)) with (String c1 r1 +:+ d2).
    destruct (handle_data_returns self (String c1 r1)) as (s1 & Hs1 & Hr & Hi1).
    rewrite Hs1, res_bind_Ok, res_bind_ret.
    rewrite feed_text_chunk;
      [|by rewrite Hr|done|rewrite Hi1; intros Hi; by apply Hamp].
    destruct d2 as [|c2 r2].
    + by rewrite str_append_nil_r.
    + by rewrite <- handle_data_twice, Hs1, res_bind_Ok.
Qed.

End TextChunks.

Lemma feed_text_chunks_witness :
  let self := mkParser [Element "style" [] None None []] [0] (Some 0)
                       false false EmptyString (Some "style") in
  Inert.feed_all self ["a & "] = handle_data self "a & "
  /\ Inert.feed_all self ["a & "; "b"] = Inert.feed_all self ["a & b"].
Proof.
  intros self.
  destruct (feed_text_chunks Inert.parse_declaration Inert.goahead_reference
              Inert.replace_entities self "a & " "b") as [H1 H2];
    [reflexivity|reflexivity|reflexivity|discriminate|].
  split.
  - unfold Inert.feed_all. cbn [feed_all]. rewrite H1. apply res_bind_ret.
  - unfold Inert.feed_all. rewrite H2. cbn [feed_all].
    symmetry. apply res_bind_ret.
Defined.

(** ** The case of the names handed to the builder *)

Section NameCase.

Variable replace_entities : string -> string.

(** X9. Outside case-retaining mode and outside svg, the scanner hands the
    builder lowercase names only: the tag name is lowercase, and unless the
    tag is svg itself (whose attributes keep their case) so is every
    attribute name collected by the loop of [parse_starttag]. *)
Theorem names_lowercased (self : Parser) (raw : string)
    (fuel endpos k : nat) :
  retain_case self = false -> in_svg self = false ->
  let final_tag := case_hack self raw in
  Py.lower final_tag = final_tag
  /\ (final_tag <> "svg" ->
      Forall (fun nv => Py.lower (fst nv) = fst nv)
             (fst (attr_loop replace_entities fuel self final_tag endpos k []))).
Proof.
  intros Hrc Hsvg final_tag.
  assert (Hfold : final_tag = Py.lower raw).
  { unfold final_tag, case_hack, should_retain_case. by rewrite Hrc, Hsvg. }
  split; [rewrite Hfold; apply lower_idem|].
  intros Hne.
  assert (Hkeep : should_retain_case self (Some final_tag) = false).
  { unfold should_retain_case. rewrite Hrc, Hsvg. cbn [orb].
    by apply String.eqb_neq. }
  generalize (@nil (string * option string))
             (@Forall_nil_2 (string * option string)
                (fun nv => Py.lower (fst nv) = fst nv)).
  generalize final_tag Hkeep. clear. intros final_tag Hkeep.
  revert k. induction fuel as [|fuel IH]; intros k attrs Hattrs; [done|].
  cbn [attr_loop].
  destruct (Nat.ltb k endpos); [|done].
  destruct (Re.ATTRFIND (rawdata self) k) as [[[n v] e]|]; [|done].
  destruct (_ || _); [by apply IH|].
  apply IH. apply Forall_app. split; [done|].
  apply Forall_singleton. rewrite Hkeep. cbn [negb fst]. apply lower_idem.
Qed.

End NameCase.

Lemma names_lowercased_witness :
  let self := set_rawdata (init false) "<A HREF=x Id=y>" in
  Py.lower (case_hack self "A") = case_hack self "A"
  /\ (case_hack self "A" <> "svg" ->
      Forall (fun nv => Py.lower (fst nv) = fst nv)
             (fst (attr_loop Inert.replace_entities 12 self
                     (case_hack self "A") 15 2 []))).
Proof.
  intros self.
  apply (names_lowercased Inert.replace_entities self "A" 12 15 2);
    reflexivity.
Defined.

(** ** The attributes of a new element *)

Lemma attrib_set_keys (k v : string) (a : list (string * string)) :
  (attrib_set k v a).*1 = if bool_decide (k ∈ a.*1) then a.*1 else a.*1 ++ [k].
Proof.
  induction a as [|[k' v'] a IH].
  - done.
  - cbn [attrib_set]. destruct (String.eqb_spec k' k) as [->|Hne].
    + cbn [fmap list_fmap fst]. rewrite bool_decide_eq_true_2; [done|].
      apply elem_of_cons. by left.
    + cbn [fmap list_fmap fst]. fold (fmap (M:=list) (@fst string string)).
      rewrite IH. destruct (bool_decide_reflect (k ∈ a.*1)) as [Hin|Hout].
      * rewrite bool_decide_eq_true_2; [done|]. apply elem_of_cons. by right.
      * rewrite bool_decide_eq_false_2; [done|].
        intros [?|?]%elem_of_cons; [congruence|done].
Qed.

Lemma attrib_set_NoDup (k v : string) (a : list (string * string)) :
  NoDup a.*1 -> NoDup (attrib_set k v a).*1.
Proof.
  intros H. rewrite attrib_set_keys.
  destruct (bool_decide_reflect (k ∈ a.*1)) as [Hin|Hout]; [done|].
  apply NoDup_app. split; [done|]. split; [|apply NoDup_singleton].
  intros x Hx ->%list_elem_of_singleton. done.
Qed.

Lemma attrib_get_set (k k' v : string) (a : list (string * string)) :
  attrib_get k (attrib_set k' v a)
  = if String.eqb k' k then Some v else attrib_get k a.
Proof.
  induction a as [|[k0 v0] a IH]; cbn [attrib_set attrib_get].
  - done.
  - destruct (String.eqb_spec k0 k') as [->|Hne]; cbn [attrib_get].
    + by destruct (String.eqb k' k).
    + rewrite IH. destruct (String.eqb_spec k0 k) as [->|]; [|done].
      destruct (String.eqb_spec k' k) as [->|]; [done|done].
Qed.

Lemma attrib_update_spec (k : string) (attrs : list (string * option string))
    (a : list (string * string)) :
  NoDup a.*1 ->
  NoDup (attrib_update a attrs).*1
  /\ attrib_get k (attrib_update a attrs)
     = match last (filter (fun kv => fst kv = k) attrs) with
       | Some kv => Some (default EmptyString (snd kv))
       | None => attrib_get k a
       end.
Proof.
  revert a. induction attrs as [|[k' v'] attrs IH]; intros a Ha; [done|].
  unfold attrib_update. cbn [fold_left fst snd].
  fold (attrib_update (attrib_set k' (default EmptyString v') a) attrs).
  destruct (IH (attrib_set k' (default EmptyString v') a)) as [Hnd Hget];
    [by apply attrib_set_NoDup|].
  split; [done|]. rewrite Hget, attrib_get_set.
  rewrite filter_cons. cbn [fst].
  destruct (decide (k' = k)) as [->|Hne].
  - rewrite String.eqb_refl.
    destruct (filter _ attrs) as [|x l] eqn:Hf; [done|].
    change (last ((k, v') :: x :: l)) with (last (x :: l)).
    destruct (last (x :: l)) eqn:Hl; [done|].
    by apply last_None in Hl.
  - apply String.eqb_neq in Hne. by rewrite Hne.
Qed.

Lemma attrib_alter (f : element -> element) (i : nat) (h : list element) :
  (forall e, tag (f e) = tag e /\ attrib (f e) = attrib e) ->
  (fun e => (tag e, attrib e)) <$> alter f i h
  = (fun e => (tag e, attrib e)) <$> h.
Proof.
  intros Hf. revert i. induction h as [|e h IH]; intros i; [done|].
  destruct i as [|i]; cbn.
  - by destruct (Hf e) as [-> ->].
  - f_equal. apply IH.
Qed.

(** X10. The element created by [open_tag] carries the tag it was given
    and the attributes as a dictionary built from the list: one entry per
    distinct name, the value of the last occurrence of the name, and the
    empty string where the attribute has no value. *)
Theorem open_tag_element (self self1 : Parser) (tag_ k : string)
    (attrs : list (string * option string)) :
  open_tag self tag_ attrs = Ok self1 ->
  let e := deref self1 (length (heap self)) in
  tag e = tag_
  /\ NoDup (attrib e).*1
  /\ attrib_get k (attrib e)
     = (fun kv => default EmptyString (snd kv))
         <$> last (filter (fun kv => fst kv = k) attrs).
Proof.
  intros H e.
  assert (He : (tag e, attrib e) = (tag_, attrib_update [] attrs)).
  { assert (Hl : ((fun e => (tag e, attrib e)) <$> heap self1)
                 !! length (heap self)
                 = Some (tag_, attrib_update [] attrs)).
    { unfold open_tag in H. cbv zeta in H.
      apply bind_Ok in H as (s2 & Hs2 & H).
      assert (Hh : heap self1 = heap s2)
        by (injection H as <-; by destruct (String.eqb tag_ "svg")).
      rewrite Hh. clear H Hh. cbn [root set_heap] in Hs2.
      assert (H0 : ((fun e => (tag e, attrib e))
                      <$> (heap self
                           ++ [Element tag_ (attrib_update [] attrs)
                                 None None []]))
                   !! length (heap self)
                   = Some (tag_, attrib_update [] attrs)).
      { rewrite list_lookup_fmap, list_lookup_middle; done. }
      destruct (root self) as [r|].
      - cbn [stack set_heap] in Hs2.
        destruct (stack self) as [|id0 st0]; [discriminate|].
        apply bind_Ok in Hs2 as (s3 & Hs3 & Hs2).
        apply force_close_frame in Hs3 as (Hh3 & _).
        destruct (last (stack s3)) as [parent|]; [|discriminate].
        injection Hs2 as <-. cbn [heap append_child set_heap].
        rewrite attrib_alter by done. by rewrite Hh3.
      - by injection Hs2 as <-. }
    rewrite list_lookup_fmap in Hl.
    destruct (heap self1 !! length (heap self)) as [e'|] eqn:He';
      [|discriminate].
    unfold e, deref. rewrite (list_lookup_total_correct _ _ _ He').
    cbn in Hl. by injection Hl as -> ->. }
  injection He as -> ->.
  destruct (attrib_update_spec k attrs []) as [Hnd Hget]; [apply NoDup_nil_2|].
  split; [done|]. split; [done|]. rewrite Hget.
  by destruct (last _).
Qed.

Lemma open_tag_element_witness :
  let attrs := [("id", Some "a"); ("hidden", None); ("id", Some "b")] in
  let self1 := mkParser [Element "div" [("id", "b"); ("hidden", EmptyString)]
                           None None []]
                        [0] (Some 0) false false EmptyString None in
  let e := deref self1 0 in
  tag e = "div"
  /\ NoDup (attrib e).*1
  /\ attrib_get "id" (attrib e)
     = (fun kv => default EmptyString (snd kv))
         <$> last (filter (fun kv => fst kv = "id") attrs).
Proof.
  intros attrs self1.
  apply (open_tag_element (init false) self1 "div" "id" attrs).
  reflexivity.
Defined.

(** ** A self-closing tag *)

Lemma close_tag_set_interesting (self : Parser) (p : option string)
    (tag_ : string) (force : bool) :
  close_tag (set_interesting self p) tag_ force
  = match close_tag self tag_ force with
    | Ok s => Ok (set_interesting s p)
    | Raise e => Raise e
    end.
Proof.
  unfold close_tag. cbn [stack set_interesting].
  change (deref (set_interesting self p)) with (deref self).
  destruct (last (stack self)) as [top|]; [|done].
  destruct (negb force && negb (String.eqb (tag (deref self top)) tag_));
    [done|].
  by destruct (String.eqb (tag (deref self top)) "svg").
Qed.

Lemma close_tag_interesting (self self' : Parser) (tag_ : string)
    (force : bool) :
  close_tag self tag_ force = Ok self' -> interesting self' = interesting self.
Proof.
  intros H. apply close_tag_Ok in H as (top & _ & _ & ->).
  by destruct (String.eqb (tag (deref self top)) "svg").
Qed.

Lemma set_interesting_same (self : Parser) :
  set_interesting self (interesting self) = self.
Proof. by destruct self. Qed.

(** X11. A self-closing tag is the start tag followed by the end tag:
    [handle_startendtag] builds what [handle_starttag] and then
    [handle_endtag] build, for void, ordinary and raw-text elements alike,
    and raises in the same cases.  The one difference is the text pattern:
    [handle_starttag] switches to raw-text mode for script and style, which
    [handle_startendtag] leaves as it was. *)
Theorem startendtag_is_start_then_end (self : Parser) (tag_ : string)
    (attrs : list (string * option string)) :
  handle_startendtag self tag_ attrs
  = (s1 ← handle_starttag self tag_ attrs;
     s2 ← handle_endtag s1 tag_;
     Ok (set_interesting s2 (interesting self))).
Proof.
  unfold handle_startendtag, handle_starttag, handle_endtag.
  destruct (open_tag self tag_ attrs) as [s0|e] eqn:Hopen; [|done].
  pose proof (open_tag_parts _ _ _ _ Hopen)
    as (_ & _ & _ & _ & _ & _ & _ & _ & Hi & _).
  rewrite !res_bind_Ok.
  destruct (bool_decide (Py.lower tag_ ∈ VOID_TAGS)).
  - destruct (close_tag s0 tag_ false) as [s1|e] eqn:Hclose; [|done].
    rewrite !res_bind_Ok.
    apply close_tag_interesting in Hclose.
    assert (Hs : set_interesting s1 (interesting self) = s1)
      by (rewrite <- Hi, <- Hclose; apply set_interesting_same).
    destruct (bool_decide (Py.lower tag_ ∈ CDATA_CONTENT_ELEMENTS_V2));
      [|by rewrite Hs].
    change (set_interesting (set_specific_cdata_mode s1 tag_)
              (interesting self))
      with (set_interesting s1 (interesting self)).
    by rewrite Hs.
  - rewrite !res_bind_Ok.
    assert (Hgo : forall p,
               (s2 ← close_tag (set_interesting s0 p) tag_ false;
                Ok (set_interesting s2 (interesting self)))
               = close_tag s0 tag_ false).
    { intros p. rewrite close_tag_set_interesting.
      destruct (close_tag s0 tag_ false) as [s1|e] eqn:Hclose; [|done].
      rewrite res_bind_Ok. apply close_tag_interesting in Hclose.
      cbn [set_interesting]. f_equal.
      rewrite <- Hi, <- Hclose. by destruct s1. }
    destruct (bool_decide (Py.lower tag_ ∈ CDATA_CONTENT_ELEMENTS_V2)).
    + symmetry. apply (Hgo (Some tag_)).
    + pose proof (Hgo (interesting s0)) as H0.
      rewrite set_interesting_same in H0. by rewrite H0.
Qed.

(** ** The shape of the store *)

Lemma kids_alter (f : element -> element) (i : nat) (h : list element) :
  (forall e, kids (f e) = kids e) -> kids <$> alter f i h = kids <$> h.
Proof.
  intros Hf. revert i. induction h as [|e h IH]; intros i; [done|].
  destruct i as [|i]; cbn.
  - by rewrite Hf.
  - f_equal. apply IH.
Qed.

Lemma handle_data_kids (self self' : Parser) (data : string) :
  handle_data self data = Ok self' ->
  kids <$> heap self' = kids <$> heap self
  /\ stack self' = stack self /\ root self' = root self.
Proof.
  unfold handle_data. intros H.
  destruct (last (stack self)) as [top|]; [|by injection H as <-].
  destruct (last (children (deref self top))) as [[c|d t]|];
    injection H as <-; (split; [|done]);
    cbn [heap add_tail add_comment_tail add_text set_heap];
    apply kids_alter; intros e; unfold kids; cbn [children]; try done.
  destruct (last (children e)) as [[c'|d' t']|] eqn:Hl; try done.
  rewrite (last_removelast _ _ Hl) at 2. by rewrite !omap_app.
Qed.

Lemma handle_comment_kids (self self' : Parser) (data : string) :
  handle_comment self data = Ok self' ->
  kids <$> heap self' = kids <$> heap self
  /\ stack self' = stack self /\ root self' = root self.
Proof.
  unfold handle_comment. intros H.
  destruct (last (stack self)) as [top|]; [|discriminate].
  injection H as <-. split; [|done].
  cbn [heap append_child set_heap]. apply kids_alter. intros e.
  unfold kids. cbn [children]. rewrite omap_app. cbn. apply app_nil_r.
Qed.

Lemma lookup_removelast {A} (l : list A) (i : nat) (x : A) :
  removelast l !! i = Some x -> l !! i = Some x.
Proof.
  intros H. destruct (last l) as [y|] eqn:Hl.
  - rewrite (last_removelast l y Hl). by apply lookup_app_l_Some.
  - apply last_None in Hl. by subst l.
Qed.

Lemma chain_removelast (K : list (list nat)) (st : list nat) :
  chain K st -> chain K (removelast st).
Proof.
  intros [H0 H1]. split.
  - intros r Hr. apply H0. by apply lookup_removelast.
  - intros i p c Hp Hc. apply (H1 i); by apply lookup_removelast.
Qed.

Lemma force_close_chain (n : nat) (self self' : Parser) (tag_ : string)
    (K : list (list nat)) :
  force_close n self tag_ = Ok self' ->
  chain K (stack self) -> chain K (stack self').
Proof.
  revert self. induction n as [|n IH]; intros self H Hc.
  - by injection H as <-.
  - cbn [force_close] in H. apply bind_Ok in H as (s1 & Hs1 & H).
    apply close_tag_frame in Hs1 as (_ & Hs & _).
    apply (IH s1); [done|]. rewrite Hs. by apply chain_removelast.
Qed.

(** The store, the root and the stack after a successful [open_tag]. *)
Lemma open_tag_heap (self self1 : Parser) (tag_ : string)
    (attrs : list (string * option string)) :
  open_tag self tag_ attrs = Ok self1 ->
  let new := length (heap self) in
  let h0 := heap self ++ [Element tag_ (attrib_update [] attrs) None None []] in
  exists n s2,
    force_close n (set_heap self h0) tag_ = Ok s2
    /\ stack self1 = stack s2 ++ [new]
    /\ match root self with
       | None => heap self1 = h0 /\ root self1 = Some new
       | Some r =>
           exists parent,
             last (stack s2) = Some parent
             /\ heap self1
                = alter (fun e => Element (tag e) (attrib e) (text e) (tail e)
                                    (children e ++ [CElem new]))
                        parent h0
             /\ root self1 = Some r
       end.
Proof.
  unfold open_tag. cbv zeta. set (self0 := set_heap self _).
  intros H. apply bind_Ok in H as (s2 & Hs2 & H).
  assert (Hout : stack self1 = stack s2 ++ [length (heap self)]
                 /\ heap self1 = heap s2 /\ root self1 = root s2).
  { injection H as <-. destruct (String.eqb tag_ "svg"); done. }
  destruct Hout as (Hs & Hh & Hr). clear H.
  change (root self0) with (root self) in Hs2.
  destruct (root self) as [r|] eqn:Hroot.
  - destruct (stack self0) as [|id0 st0] eqn:Hst0; [discriminate|].
    cbv iota in Hs2. apply bind_Ok in Hs2 as (s3 & Hs3 & Hs2).
    unfold check_autoclose_on_open in Hs3.
    destruct (last (stack s3)) as [parent|] eqn:Hlast; [|discriminate].
    injection Hs2 as <-.
    pose proof (force_close_frame _ _ _ _ Hs3) as (Hh3 & _ & Hr3).
    exists (find_autoclose_on_open self0 tag_), s3.
    split; [done|]. split; [done|]. exists parent.
    split; [done|]. split.
    + rewrite Hh. cbn [heap append_child set_heap]. by rewrite Hh3.
    + rewrite Hr. cbn [root append_child set_heap]. by rewrite Hr3.
  - injection Hs2 as <-. exists 0, self0. done.
Qed.

Lemma mjoin_alter_snoc (K : list (list nat)) (i x : nat) :
  i < length K ->
  mjoin (alter (fun ks => ks ++ [x]) i K) ≡ₚ mjoin K ++ [x].
Proof.
  revert i. induction K as [|ks K IH]; intros i Hi; [simpl in Hi; lia|].
  destruct i as [|i]; cbn.
  - rewrite <- !app_assoc. apply Permutation_app_head, Permutation_app_comm.
  - rewrite <- app_assoc. apply Permutation_app_head, IH.
    simpl in Hi. lia.
Qed.

Lemma lookup_total_nil_ge (K : list (list nat)) (p : nat) :
  length K <= p -> K !!! p = [].
Proof.
  intros H. rewrite list_lookup_total_alt.
  by rewrite (lookup_ge_None_2 K p) by lia.
Qed.

Lemma elem_of_lookup_total_lt (K : list (list nat)) (p c : nat) :
  c ∈ K !!! p -> p < length K.
Proof.
  intros H. destruct (decide (p < length K)) as [|Hge]; [done|].
  rewrite lookup_total_nil_ge in H by lia. by apply elem_of_nil in H.
Qed.

Lemma kids_alter_append (h : list element) (parent new : nat) :
  kids <$> alter (fun e => Element (tag e) (attrib e) (text e) (tail e)
                             (children e ++ [CElem new])) parent h
  = alter (fun ks => ks ++ [new]) parent (kids <$> h).
Proof.
  revert parent. induction h as [|e h IH]; intros parent; [done|].
  destruct parent as [|parent]; cbn.
  - f_equal. unfold kids. cbn [children]. by rewrite omap_app.
  - f_equal. apply IH.
Qed.

Lemma dispatch_tree_shaped (self self' : Parser) (c : call) :
  wf self -> tree_shaped self -> dispatch self c = Ok self' ->
  tree_shaped self'.
Proof.
  assert (Hclose : forall s s' t f,
             tree_shaped s -> close_tag s t f = Ok s' -> tree_shaped s').
  { intros s s' t f (Hr & Ho & Hp & Hc) H.
    apply close_tag_frame in H as (Hh & Hs & Hr').
    unfold tree_shaped. rewrite Hh, Hs, Hr'.
    split; [done|]. split; [done|]. split; [done|].
    by apply chain_removelast. }
  assert (Hsame : forall s s',
             kids <$> heap s' = kids <$> heap s
             /\ stack s' = stack s /\ root s' = root s ->
             tree_shaped s -> tree_shaped s').
  { intros s s' (Hk & Hs & Hr') (Hr & Ho & Hp & Hc).
    unfold tree_shaped. rewrite Hk, Hs, Hr'.
    split; [|done]. rewrite Hr.
    apply (f_equal length) in Hk. rewrite !length_fmap in Hk.
    destruct (heap s), (heap s'); done. }
  assert (Hopen : forall s s' t a,
             wf s -> tree_shaped s -> open_tag s t a = Ok s' ->
             tree_shaped s').
  { clear self self' c. intros self self1 t a [Hst _] (Hr & Ho & Hp & Hc) H.
    apply open_tag_heap in H as (n & s2 & Hf & Hs & H).
    pose proof (force_close_frame _ _ _ _ Hf) as (_ & Hsub & _).
    cbn [stack set_heap] in Hsub.
    assert (Halloc : forall id, id ∈ stack self -> id < length (heap self)).
    { intros id Hid. destruct (Hst id Hid) as (t' & Ht' & _).
      apply lookup_lt_Some in Ht'. unfold tags in Ht'.
      by rewrite length_fmap in Ht'. }
    pose proof (force_close_chain _ _ _ _ (kids <$> heap self) Hf Hc) as Hc2.
    set (K := kids <$> heap self) in *.
    assert (HK : length K = length (heap self))
      by (unfold K; by rewrite length_fmap).
    destruct (root self) as [r|] eqn:Hroot.
    - destruct H as (parent & Hlast & Hh & Hr1).
      assert (Hpar : parent < length K).
      { rewrite HK. apply Halloc, Hsub. by eapply last_Some_elem_of. }
      assert (Hne : heap self <> [])
        by (intros Hnil; rewrite Hnil in Hr; discriminate).
      assert (HK' : kids <$> heap self1
                    = alter (fun ks => ks ++ [length (heap self)]) parent
                            (K ++ [[]])).
      { rewrite Hh, kids_alter_append. by rewrite fmap_app. }
      assert (Hlk : forall p,
                 (kids <$> heap self1) !!! p
                 = if decide (p = parent)
                   then K !!! p ++ [length (heap self)] else K !!! p).
      { intros p. rewrite HK', list_lookup_total_alter.
        destruct (decide (parent = p /\ _)) as [[-> _]|Hno].
        - rewrite decide_True by done.
          by rewrite lookup_total_app_l by done.
        - destruct (decide (p = parent)) as [->|Hnp].
          { exfalso. apply Hno. split; [done|]. rewrite length_app. lia. }
          destruct (decide (p < length K)) as [Hlt|Hge].
          + by rewrite lookup_total_app_l by done.
          + rewrite (lookup_total_nil_ge K) by lia.
            destruct (decide (p = length K)) as [->|].
            * rewrite lookup_total_app_r by lia.
              by rewrite Nat.sub_diag.
            * apply lookup_total_nil_ge. rewrite length_app. simpl. lia. }
      unfold tree_shaped. split; [|split; [|split]].
      + rewrite Hr1, Hr, Hh.
        destruct (heap self) as [|e0 h0] eqn:Hheap; [done|].
        by destruct parent.
      + intros p c0. rewrite Hlk. destruct (decide (p = parent)) as [->|].
        * intros [Hin| ->%list_elem_of_singleton]%elem_of_app;
            [by apply Ho|lia].
        * apply Ho.
      + rewrite HK', mjoin_alter_snoc by (rewrite length_app; lia).
        rewrite join_app, length_alter, length_app. cbn [mjoin length].
        rewrite !app_nil_r. rewrite Hp.
        replace (length K + 1 - 1) with (S (length K - 1)) by lia.
        rewrite seq_S. rewrite HK. do 2 f_equiv. lia.
      + rewrite Hs. destruct Hc2 as [Hc0 Hc1]. split.
        * intros r0 Hr0. apply Hc0.
          destruct (stack s2) as [|x l]; [discriminate Hlast|].
          exact Hr0.
        * intros i p c0 Hp0 Hc0'.
          destruct (decide (S i < length (stack s2))) as [Hlt|Hge].
          -- rewrite lookup_app_l in Hp0 by lia.
             rewrite lookup_app_l in Hc0' by lia.
             pose proof (Hc1 i p c0 Hp0 Hc0') as Hin.
             rewrite Hlk. destruct (decide (p = parent)); [|done].
             apply elem_of_app. by left.
          -- apply lookup_lt_Some in Hc0' as Hlen.
             rewrite length_app in Hlen. simpl in Hlen.
             assert (Hi : S i = length (stack s2)) by lia.
             rewrite lookup_app_r in Hc0' by lia.
             rewrite Hi, Nat.sub_diag in Hc0'. injection Hc0' as <-.
             rewrite lookup_app_l in Hp0 by lia.
             rewrite last_lookup in Hlast.
             replace (pred (length (stack s2))) with i in Hlast by lia.
             assert (p = parent) as -> by congruence.
             rewrite Hlk, decide_True by done.
             apply elem_of_app. right. by apply list_elem_of_singleton.
    - destruct H as (Hh & Hr1).
      assert (Hnil : heap self = []) by (by destruct (heap self)).
      assert (Hstk : stack self = []).
      { destruct (stack self) as [|x l] eqn:Hx; [done|].
        specialize (Halloc x ltac:(by left)). rewrite Hnil in Halloc.
        simpl in Halloc. lia. }
      assert (Hs2 : stack s2 = []).
      { destruct (stack s2) as [|x l]; [done|].
        specialize (Hsub x ltac:(by left)). rewrite Hstk in Hsub.
        by apply elem_of_nil in Hsub. }
      unfold tree_shaped. rewrite Hh, Hr1, Hs, Hs2, Hnil. cbn.
      split; [done|]. split.
      + intros p c0 Hin. destruct p as [|p]; cbn in Hin;
          by apply elem_of_nil in Hin.
      + split; [done|]. split.
        * by intros r [= <-].
        * intros i p c0 _ Hc0. destruct i; discriminate Hc0. }
  intros Hwf Hts H. destruct c as [t a|t a|t|d|d]; cbn [dispatch] in H.
  - unfold handle_starttag in H. apply bind_Ok in H as (s1 & Hs1 & H).
    apply bind_Ok in H as (s2 & Hs2 & H).
    apply Hopen in Hs1; [|done..].
    assert (H2 : tree_shaped s2).
    { destruct (bool_decide (Py.lower t ∈ VOID_TAGS));
        [by eapply Hclose|by injection Hs2 as <-]. }
    injection H as <-.
    destruct (bool_decide (Py.lower t ∈ CDATA_CONTENT_ELEMENTS_V2));
      exact H2.
  - unfold handle_startendtag in H. apply bind_Ok in H as (s1 & Hs1 & H).
    apply Hopen in Hs1; [|done..]. by eapply Hclose.
  - unfold handle_endtag in H.
    destruct (bool_decide (Py.lower t ∈ VOID_TAGS)); [by injection H as <-|].
    by eapply Hclose.
  - apply handle_data_kids in H. by eapply Hsame.
  - apply handle_comment_kids in H. by eapply Hsame.
Qed.

Lemma steps_tree_shaped (self self' : Parser) :
  rtc (step any_call) self self' ->
  wf self -> tree_shaped self -> wf self' /\ tree_shaped self'.
Proof.
  intros H. induction H as [self|self self1 self' H1 _ IH]; [done|].
  intros Hwf Hinv. apply IH.
  - by apply (step_Ok any_call self self1).
  - destruct H1 as [self c self1 _ H|self d|self p'];
      [by eapply dispatch_tree_shaped|done|done].
Qed.

Lemma tree_shaped_init (rc : bool) : tree_shaped (init rc).
Proof.
  unfold tree_shaped. cbn. split; [done|]. split.
  - intros p c Hin. destruct p; by apply elem_of_nil in Hin.
  - split; [done|]. split; [by intros r [=]|].
    intros i p c [=].
Qed.

(** X12. What the parser builds is a tree.  In every state a parse can
    reach from a fresh parser: the root, once set, is the first element
    created; a child is created after its parent; every element other than
    the root is the child of exactly one element and occurs there once;
    and the stack is a path from the root, each entry a child of the one
    below it. *)
Theorem parser_builds_a_tree (rc : bool) (self : Parser) :
  rtc (step any_call) (init rc) self -> tree_shaped self.
Proof.
  intros Hreach.
  by apply steps_tree_shaped in Hreach as [_ H];
    [|apply wf_init|apply tree_shaped_init].
Qed.

Lemma parser_builds_a_tree_witness :
  tree_shaped
    (mkParser [Element "ul" [] None None [CElem 1; CComment "x" None; CElem 2];
               Element "li" [] (Some "a") None [];
               Element "li" [] None None [CElem 3];
               Element "b" [] None None []]
              [0; 2; 3] (Some 0) false false EmptyString None).
Proof.
  apply (parser_builds_a_tree false).
  apply (run_steps any_call
           [Starttag "ul" []; Starttag "li" []; Data "a"; Endtag "li";
            Comment "x"; Starttag "li" []; Starttag "b" []]);
    reflexivity.
Defined.

Lemma inert_feed_all_tree_shaped (rc : bool) (chunks : list string)
    (self : Parser) :
  Inert.feed_all (init rc) chunks = Ok self -> tree_shaped self.
Proof.
  intros H.
  assert (Hreach : rtc (step any_call) (init rc) self).
  { revert H. apply feed_all_steps. intros a i a' f [= <- _]. apply rtc_refl. }
  by apply steps_tree_shaped in Hreach as [_ Ht];
    [|apply wf_init|apply tree_shaped_init].
Qed.

(** The bound on depth in [root_tree] cuts nothing off: in a store where a
    child is allocated after its parent, any bound that covers the elements
    allocated after [id] gives the same tree below [id]. *)
Lemma snapshot_fuel (h : list element) (f1 f2 id : nat) :
  (forall p c, c ∈ (kids <$> h) !!! p -> p < c) ->
  length h - id <= f1 -> length h - id <= f2 ->
  snapshot f1 h id = snapshot f2 h id.
Proof.
  intros Hord. revert f2 id. induction f1 as [|f1 IH]; intros f2 id H1 H2.
  - assert (Hnil : children (h !!! id) = []).
    { rewrite list_lookup_total_alt, (lookup_ge_None_2 h id) by lia. done. }
    destruct f2; cbn [snapshot]; cbv zeta; by rewrite ?Hnil.
  - destruct f2 as [|f2].
    + assert (Hnil : children (h !!! id) = []).
      { rewrite list_lookup_total_alt, (lookup_ge_None_2 h id) by lia. done. }
      cbn [snapshot]. cbv zeta. by rewrite Hnil.
    + cbn [snapshot]. cbv zeta. f_equal. apply map_ext_in. intros [c|d t] Hin; [|done].
      destruct (decide (id < length h)) as [Hlt|Hge].
      * assert (Hc : id < c).
        { apply Hord. destruct (lookup_lt_is_Some_2 h id Hlt) as [e He].
          rewrite (list_lookup_total_correct h id e He) in Hin.
          rewrite (list_lookup_total_correct (kids <$> h) id (kids e))
            by (by rewrite list_lookup_fmap, He).
          unfold kids. apply list_elem_of_omap. exists (CElem c).
          split; [|done]. by apply list_elem_of_In. }
        apply IH; lia.
      * rewrite list_lookup_total_alt, (lookup_ge_None_2 h id) in Hin by lia.
        destruct Hin.
Qed.

(** ** Raw text *)








Section RawText.

Variable parse_declaration : string -> nat -> res (option nat).
Variable goahead_reference : Parser -> nat -> res (Parser * flow).
Variable replace_entities : string -> string.

#[local] Abbreviation goahead_loop_r :=
  (goahead_loop parse_declaration goahead_reference replace_entities).
#[local] Abbreviation goahead_tag_r :=
  (goahead_tag parse_declaration replace_entities).
#[local] Abbreviation parse_html_r :=
  (parse_html parse_declaration goahead_reference replace_entities).












End RawText.


(** ** Elements are never renamed or removed *)

Lemma dispatch_identity (self self' : Parser) (c : call) :
  dispatch self c = Ok self' ->
  exists more,
    (fun e => (tag e, attrib e)) <$> heap self'
    = ((fun e => (tag e, attrib e)) <$> heap self) ++ more.
Proof.
  assert (Hclose : forall s s' t f,
             close_tag s t f = Ok s' -> heap s' = heap s).
  { intros s s' t f H. by apply close_tag_frame in H as (-> & _). }
  assert (Hopen : forall s s' t a,
             open_tag s t a = Ok s' ->
             (fun e => (tag e, attrib e)) <$> heap s'
             = ((fun e => (tag e, attrib e)) <$> heap s)
               ++ [(t, attrib_update [] a)]).
  { intros s s' t a H. apply open_tag_heap in H as (n & s2 & _ & _ & H).
    destruct (root s) as [r|].
    - destruct H as (parent & _ & -> & _).
      rewrite attrib_alter by done. by rewrite fmap_app.
    - destruct H as [-> _]. by rewrite fmap_app. }
  intros H. destruct c as [t a|t a|t|d|d]; cbn [dispatch] in H.
  - unfold handle_starttag in H. apply bind_Ok in H as (s1 & Hs1 & H).
    apply bind_Ok in H as (s2 & Hs2 & H). apply Hopen in Hs1.
    exists [(t, attrib_update [] a)]. rewrite <- Hs1.
    assert (Hh : heap s2 = heap s1).
    { destruct (bool_decide (Py.lower t ∈ VOID_TAGS));
        [by eapply Hclose|by injection Hs2 as <-]. }
    injection H as <-. rewrite <- Hh.
    by destruct (bool_decide (Py.lower t ∈ CDATA_CONTENT_ELEMENTS_V2)).
  - unfold handle_startendtag in H. apply bind_Ok in H as (s1 & Hs1 & H).
    apply Hopen in Hs1. apply Hclose in H.
    exists [(t, attrib_update [] a)]. by rewrite H.
  - exists []. rewrite app_nil_r. unfold handle_endtag in H.
    destruct (bool_decide (Py.lower t ∈ VOID_TAGS)); [by injection H as <-|].
    by rewrite (Hclose _ _ _ _ H).
  - exists []. rewrite app_nil_r. unfold handle_data in H.
    destruct (last (stack self)) as [top|]; [|by injection H as <-].
    destruct (last (children (deref self top))) as [[c|d' t]|];
      injection H as <-;
      cbn [heap add_tail add_comment_tail add_text set_heap];
      by apply attrib_alter.
  - exists []. rewrite app_nil_r. unfold handle_comment in H.
    destruct (last (stack self)) as [top|]; [|discriminate].
    injection H as <-. cbn [heap append_child set_heap].
    by apply attrib_alter.
Qed.

(** X14. An element, once created, is never removed and never changes its
    tag or its attributes: over any stretch of a parse the sequence of
    (tag, attributes) pairs of the elements created so far only grows at
    its end.  Closing a tag, text and comments touch neither. *)
Theorem elements_keep_identity (self self' : Parser) :
  rtc (step any_call) self self' ->
  exists more,
    (fun e => (tag e, attrib e)) <$> heap self'
    = ((fun e => (tag e, attrib e)) <$> heap self) ++ more.
Proof.
  intros H. induction H as [self|self self1 self' H1 _ IH].
  - exists []. by rewrite app_nil_r.
  - destruct IH as (more2 & ->).
    assert (H0 : exists more1,
               (fun e => (tag e, attrib e)) <$> heap self1
               = ((fun e => (tag e, attrib e)) <$> heap self) ++ more1).
    { destruct H1 as [self c self1 _ H|self d|self p'];
        [by eapply dispatch_identity| |]; exists []; by rewrite app_nil_r. }
    destruct H0 as (more1 & ->). exists (more1 ++ more2).
    by rewrite app_assoc.
Qed.

Lemma elements_keep_identity_witness :
  let self := mkParser [Element "a" [("href", "x")] None None []]
                       [0] (Some 0) false false EmptyString None in
  let self' := mkParser [Element "a" [("href", "x")] (Some "t") None
                           [CElem 1];
                         Element "b" [] None None []]
                        [0] (Some 0) false false EmptyString None in
  exists more,
    (fun e => (tag e, attrib e)) <$> heap self'
    = ((fun e => (tag e, attrib e)) <$> heap self) ++ more.
Proof.
  intros self self'. apply (elements_keep_identity self self').
  apply (run_steps any_call [Data "t"; Starttag "b" []; Endtag "b"]);
    reflexivity.
Defined.
